(** * Wikipedia principal eigenvector: redirect closure, graph building and
      damped power iteration

    Shallow embedding of the functions of
    [_posts/scikit/wikipedia-principal/wikipedia-principal.ipynb]:
    [short_name], [index], [get_redirects], [get_adjacency_matrix] and
    [centrality_scores].

    The notebook runs on Python 2.7 (its kernel), scikit-learn 0.18.

    Conventions of the embedding.
    - An N-Triples line and an article name are [string]s (byte strings in
      the notebook); a Python [dict] is a [gmap]; a Python [set] is a [gset].
    - [print] calls are progress output only and are left out.
    - The iteration order of [redirects.keys()] is not fixed by the language
      (hash order); the closure pass takes the order as a list [ks].
    - The [while True] loop of the closure pass is a fuelled function; the
      fuel that [get_redirects] needs is proved sufficient.
    - numpy/scipy arithmetic is taken over an interface [Arith]; the exact
      instance is [Qc] (rationals). *)

From Stdlib Require Import ZArith QArith Qcanon Qcabs.
From stdpp Require Import numbers strings base gmap sets list relations.

Local Open Scope string_scope.
Local Open Scope list_scope.
Local Open Scope nat_scope.
Local Open Scope stdpp_scope.

(** ** Python results *)

Inductive exn : Type :=
  | ZeroDivisionError
  | IndexError
  | KeyError.

(** The outcome of a call: a value, a raised exception, or a loop of the
    model that used up its fuel. *)
Inductive result (A : Type) : Type :=
  | Ok (a : A)
  | Raise (e : exn)
  | OutOfFuel.
Arguments Ok {A} a.
Arguments Raise {A} e.
Arguments OutOfFuel {A}.

#[global] Instance result_bind : MBind result := λ A B f r,
  match r with
  | Ok a => f a
  | Raise e => Raise e
  | OutOfFuel => OutOfFuel
  end.

#[global] Instance result_fmap : FMap result := λ A B f r,
  match r with
  | Ok a => Ok (f a)
  | Raise e => Raise e
  | OutOfFuel => OutOfFuel
  end.

(** ** Arithmetic of the numeric arrays

    The operations numpy supplies on array elements. Nothing is assumed of
    them here, so what is proved over an arbitrary [Arith] holds for IEEE
    floats as well; [Qc_arith] below is exact arithmetic. *)

Class Arith (F : Type) : Type := {
  zero : F;
  one : F;
  add : F → F → F;
  sub : F → F → F;
  mul : F → F → F;
  div : F → F → F;
  absf : F → F;
  maxf : F → F → F;
  eqf : F → F → bool;
  ltf : F → F → bool;
  of_nat : nat → F
}.

#[global] Instance arith_inhabited {F : Type} `{Arith F} : Inhabited F :=
  populate zero.

Infix "⊕" := add (at level 50, left associativity).
Infix "⊖" := sub (at level 50, left associativity).
Infix "⊗" := mul (at level 40, left associativity).
Infix "⊘" := div (at level 40, left associativity).

#[global] Instance Qc_arith : Arith Qc := {|
  zero := 0%Qc;
  one := 1%Qc;
  add := Qcplus;
  sub := Qcminus;
  mul := Qcmult;
  div := Qcdiv;
  absf := Qcabs;
  maxf := λ x y, if decide (x ≤ y)%Qc then y else x;
  eqf := λ x y, bool_decide (x = y);
  ltf := λ x y, bool_decide (x < y)%Qc;
  of_nat := λ n, Qc_of_Z (Z.of_nat n)
|}.

(** ** N-Triples lines *)

Module NT.

(** [line.split()]: the maximal runs of non-whitespace bytes; whitespace is
    tab, line feed, vertical tab, form feed, carriage return and space. *)
Definition split (line : string) : list string := String.words line.

(** [DBPEDIA_RESOURCE_PREFIX_LEN = len("http://dbpedia.org/resource/")] *)
Definition DBPEDIA_RESOURCE_PREFIX_LEN : nat :=
  String.length "http://dbpedia.org/resource/".

(** [nt_uri[SHORTNAME_SLICE]] with
    [SHORTNAME_SLICE = slice(DBPEDIA_RESOURCE_PREFIX_LEN + 1, -1)]:
    the bytes from position [PREFIX_LEN + 1] up to, not including, the last
    one; empty when the string is too short. *)
Definition short_name (nt_uri : string) : string :=
  let start := DBPEDIA_RESOURCE_PREFIX_LEN + 1 in
  let stop := String.length nt_uri - 1 in
  String.substring start (stop - start) nt_uri.

(** A line is a statement when it has exactly four tokens; the first is the
    subject, the third the object. *)
Definition parse_line (line : string) : option (string * string) :=
  match split line with
  | [s; _; o; _] => Some (short_name s, short_name o)
  | _ => None
  end.

End NT.

(** ** get_redirects *)

Module Redirects.

Implicit Types (redirects m : gmap string string) (seen : gset string).

(** First loop of [get_redirects]: [redirects[short_name(split[0])] =
    short_name(split[2])] for every line of four tokens, later lines
    overwriting earlier ones. *)
Definition parse (lines : list string) : gmap string string :=
  foldl (λ redirects line,
           match NT.parse_line line with
           | Some (s, o) => <[s := o]> redirects
           | None => redirects
           end) ∅ lines.

(** The [while True] loop of the closure pass, entered with the current
    [target] and the set [seen]:
<<
        while True:
            transitive_target = target
            target = redirects.get(target)
            if target is None or target in seen:
                break
            seen.add(target)
>>
    The value is [transitive_target] at the [break]. *)
Fixpoint walk (fuel : nat) redirects (target : string) seen : result string :=
  match fuel with
  | 0 => OutOfFuel
  | S fuel =>
      let transitive_target := target in
      match redirects !! target with
      | None => Ok transitive_target
      | Some target =>
          if decide (target ∈ seen) then Ok transitive_target
          else walk fuel redirects target ({[target]} ∪ seen)
      end
  end.

(** Body of the [for l, source in enumerate(redirects.keys())] loop. The
    dict is updated in place, so the walk of a later key reads the entries
    already rewritten for earlier keys. *)
Definition close_key (fuel : nat) redirects (source : string)
  : result (gmap string string) :=
  match redirects !! source with
  | None => Raise KeyError
  | Some target =>
      transitive_target ← walk fuel redirects target {[source]};
      Ok (<[source := transitive_target]> redirects)
  end.

Fixpoint close_keys (fuel : nat) (ks : list string) redirects
  : result (gmap string string) :=
  match ks with
  | [] => Ok redirects
  | source :: ks => redirects ← close_key fuel redirects source;
                    close_keys fuel ks redirects
  end.

(** The closure pass over the keys in the order [ks]. Every walk gets
    [S (size redirects)] iterations. *)
Definition transitive_closure (ks : list string) redirects
  : result (gmap string string) :=
  close_keys (S (size redirects)) ks redirects.

(** [ks] is an enumeration of the keys of the dict, each once. *)
Definition keys_of redirects (ks : list string) : Prop :=
  NoDup ks ∧ (list_to_set ks : gset string) = dom redirects.

(** [keys] stands for the iteration order of [redirects.keys()]. *)
Definition get_redirects (keys : gmap string string → list string)
    (lines : list string) : result (gmap string string) :=
  let redirects := parse lines in
  transitive_closure (keys redirects) redirects.

(** One hop of the redirect relation. *)
Definition hop redirects (a b : string) : Prop := redirects !! a = Some b.

(** No chain of redirects leads from a name back to itself. *)
Definition acyclic redirects : Prop := ∀ k, ¬ tc (hop redirects) k k.

(** The names of [l] follow one another by hops. *)
Definition follows redirects (l : list string) : Prop :=
  ∀ i a b, l !! i = Some a → l !! S i = Some b → redirects !! a = Some b.

(** A walk from [target] with the visited set [seen] stops at [t]: the
    names [path] walked after [target] were new when they were reached
    (not in [seen], no two equal), and at [t] the next name is missing or
    was visited before (it is in [seen] or on the path). *)
Definition stops_at redirects (target : string) seen (t : string) : Prop :=
  ∃ path, follows redirects (target :: path) ∧
          last (target :: path) = Some t ∧
          NoDup path ∧ (∀ x, x ∈ path → x ∉ seen) ∧
          (redirects !! t = None ∨
           ∃ t', redirects !! t = Some t' ∧ (t' ∈ seen ∨ t' ∈ path)).

(** What the closure pass maintains of the dict [m] it rewrites, [m0] being
    the dict before the pass: the keys are those of [m0], and an entry
    leads where a chain of one or more hops of [m0] leads. *)
Definition closing m0 m : Prop :=
  dom m = dom m0 ∧ ∀ k v, m !! k = Some v → tc (hop m0) k v.

End Redirects.

(** ** Sparse matrices

    An N×N scipy sparse matrix: the stored cells, by (row, column); a cell
    that is not stored reads as zero. [get_adjacency_matrix] only builds
    square shapes [(len(index_map), len(index_map))], and
    [centrality_scores] is applied to those. The LIL and CSR formats hold
    the same cells, so [tocsr] keeps the value. *)

Record matrix (F : Type) : Type := Matrix {
  dim : nat;
  cells : gmap (nat * nat) F
}.
Arguments Matrix {F} dim cells.
Arguments dim {F} m.
Arguments cells {F} m.

#[global] Instance matrix_inhabited F : Inhabited (matrix F) :=
  populate (Matrix 0 ∅).

Section matrix_ops.
Context {F : Type} `{Arith F}.

Definition shape (X : matrix F) : nat * nat := (dim X, dim X).

Definition cell (X : matrix F) (i j : nat) : F :=
  default zero (cells X !! (i, j)).

(** [sparse.lil_matrix((n, n), dtype=np.float32)] *)
Definition lil_matrix (n : nat) : matrix F := Matrix n ∅.

(** [X[i, j] = v]; an index outside the shape is an IndexError. *)
Definition setitem (X : matrix F) (i j : nat) (v : F) : result (matrix F) :=
  if decide (i < dim X ∧ j < dim X)
  then Ok (Matrix (dim X) (<[(i, j) := v]> (cells X)))
  else Raise IndexError.

Definition tocsr (X : matrix F) : matrix F := X.

(** Sum of the elements of an array (the order in which numpy adds them is
    not modelled). *)
Definition vsum (v : list F) : F := foldr add zero v.

(** [X.sum(axis=1)], as a flat array: the sum of each row. *)
Definition row_sum (X : matrix F) (i : nat) : F :=
  vsum (cell X i <$> seq 0 (dim X)).
Definition row_sums (X : matrix F) : list F :=
  row_sum X <$> seq 0 (dim X).

(** [X.data[X.indptr[i]:X.indptr[i + 1]] *= c]: the stored cells of row
    [i] are multiplied by [c]. *)
Definition scale_row (X : matrix F) (i : nat) (c : F) : matrix F :=
  Matrix (dim X)
    (map_imap (λ rc v, Some (if decide (rc.1 = i) then v ⊗ c else v)) (cells X)).

(** [scores * X] for a flat array [scores] of length N: the row vector
    times the matrix, entry [j] being the sum over [i] of
    [scores[i] * X[i, j]]. *)
Definition vecmat (scores : list F) (X : matrix F) : list F :=
  (λ j, vsum (imap (λ i s, s ⊗ cell X i j) scores)) <$> seq 0 (dim X).

(** [np.dot(u, v)] of two flat arrays *)
Definition dot (u v : list F) : F := vsum (zip_with mul u v).

(** [v.max()] *)
Definition vmax (v : list F) : F :=
  match v with
  | [] => zero
  | x :: v => foldl maxf x v
  end.

(** [v.nonzero()[0]]: the indices of the nonzero entries, ascending. *)
Fixpoint nonzero_from (i : nat) (v : list F) : list nat :=
  match v with
  | [] => []
  | c :: v => if eqf c zero then nonzero_from (S i) v
              else i :: nonzero_from (S i) v
  end.
Definition nonzero (v : list F) : list nat := nonzero_from 0 v.

End matrix_ops.

Arguments vsum : simpl never.
Arguments cell : simpl never.
Arguments of_nat : simpl never.

(** ** get_adjacency_matrix *)

Module Graph.
Section graph.
Context {F : Type} `{Arith F}.

Implicit Types (redirects : gmap string string) (index_map : gmap string nat)
  (links : list (nat * nat)).

(** [index(redirects, index_map, k)]: the returned id and the dict after
    the call.
<<
    k = redirects.get(k, k)
    return index_map.setdefault(k, len(index_map))
>> *)
Definition index redirects index_map (k : string) : nat * gmap string nat :=
  let k := default k (redirects !! k) in
  match index_map !! k with
  | Some i => (i, index_map)
  | None => (size index_map, <[k := size index_map]> index_map)
  end.

(** [limit is not None and l >= limit - 1] *)
Definition limit_reached (limit : option Z) (l : nat) : bool :=
  match limit with
  | None => false
  | Some limit => bool_decide (limit - 1 ≤ Z.of_nat l)%Z
  end.

(** The loop over [enumerate(BZ2File(page_links_filename))], from line
    number [l] on, with the current [index_map] and [links]. A malformed
    line is skipped by [continue], past the limit test. *)
Fixpoint ingest redirects (limit : option Z) (l : nat) (lines : list string)
    index_map links : gmap string nat * list (nat * nat) :=
  match lines with
  | [] => (index_map, links)
  | line :: lines =>
      match NT.parse_line line with
      | None => ingest redirects limit (S l) lines index_map links
      | Some (s, o) =>
          let '(i, index_map) := index redirects index_map s in
          let '(j, index_map) := index redirects index_map o in
          let links := links ++ [(i, j)] in
          if limit_reached limit l then (index_map, links)
          else ingest redirects limit (S l) lines index_map links
      end
  end.

(** [for i, j in links: X[i, j] = 1.0] *)
Fixpoint fill links (X : matrix F) : result (matrix F) :=
  match links with
  | [] => Ok X
  | (i, j) :: links => X ← setitem X i j one; fill links X
  end.

(** The part of [get_adjacency_matrix] after the redirect map is known. *)
Definition build redirects (page_links : list string) (limit : option Z)
  : result (matrix F * gmap string string * gmap string nat) :=
  let '(index_map, links) := ingest redirects limit 0 page_links ∅ [] in
  X ← fill links (lil_matrix (size index_map));
  Ok (tocsr X, redirects, index_map).

Definition get_adjacency_matrix (keys : gmap string string → list string)
    (redirect_lines page_links : list string) (limit : option Z)
  : result (matrix F * gmap string string * gmap string nat) :=
  redirects ← Redirects.get_redirects keys redirect_lines;
  build redirects page_links limit.

End graph.
End Graph.

(** The ids of an index map are [0 .. len(index_map) - 1]. *)
Definition dense (index_map : gmap string nat) : Prop :=
  ∀ i, (∃ k, index_map !! k = Some i) ↔ i < size index_map.

(** Every link pair is inside an [n]×[n] shape. *)
Definition in_bounds (n : nat) (links : list (nat * nat)) : Prop :=
  ∀ i j, (i, j) ∈ links → i < n ∧ j < n.

(** ** centrality_scores *)

Module Centrality.

(** Matrices are objects of a store; a variable holds a reference. *)
Abbreviation loc := nat (only parsing).
Abbreviation store F := (gmap nat (matrix F)) (only parsing).

Section centrality.
Context {F : Type} `{Arith F}.

(** [X.copy()]: a new object with the same cells. *)
Definition copy (X : loc) (σ : store F) : loc * store F :=
  let X' := fresh (dom σ) in
  (X', <[X' := σ !!! X]> σ).

(** The normalization loop, [X] being the working copy:
<<
    for i in incoming_counts.nonzero()[0]:
        X.data[X.indptr[i]:X.indptr[i + 1]] *= 1.0 / incoming_counts[i]
>>
    [normalize_rows] is the loop on the value of the matrix;
    [normalize] is the loop as the code runs it, every step updating in
    place the object that [X] refers to. *)
Definition normalize_rows (incoming_counts : list F) (X : matrix F) : matrix F :=
  foldl (λ X i, scale_row X i (one ⊘ (incoming_counts !!! i)))
        X (nonzero incoming_counts).

Definition normalize (X : loc) (incoming_counts : list F) (σ : store F)
  : store F :=
  foldl (λ σ i, <[X := scale_row (σ !!! X) i (one ⊘ (incoming_counts !!! i))]> σ)
        σ (nonzero incoming_counts).

(** [np.where(X.sum(axis=1) == 0, 1.0 / n, 0)], for [n ≠ 0] *)
Definition dangle_vector (X : matrix F) (n : nat) : list F :=
  (λ s, if eqf s zero then one ⊘ of_nat n else zero) <$> row_sums X.

(** [alpha * (scores * X + np.dot(dangle, prev_scores))
     + (1 - alpha) * prev_scores.sum() / n] *)
Definition power_update (X : matrix F) (dangle : list F) (alpha : F) (n : nat)
    (prev_scores : list F) : list F :=
  let d := dot dangle prev_scores in
  let t := (one ⊖ alpha) ⊗ vsum prev_scores ⊘ of_nat n in
  (λ x, alpha ⊗ (x ⊕ d) ⊕ t) <$> vecmat prev_scores X.

(** The normalized l_inf error of an update. *)
Definition error (scores prev_scores : list F) : F :=
  let scores_max := vmax (absf <$> scores) in
  let scores_max := if eqf scores_max zero then one else scores_max in
  vmax (absf <$> zip_with sub scores prev_scores) ⊘ scores_max.

(** The local variables when [centrality_scores] returns: the vector, the
    number of updates made, the last error computed (if any), and whether
    the [return] inside the loop was taken. Only [final_scores] is
    returned to the caller. *)
Record loop_exit : Type := LoopExit {
  final_scores : list F;
  updates : nat;
  last_err : option F;
  early_return : bool
}.

(** [for i in range(max_iter)] from iteration [i] on, [todo] iterations
    being left. *)
Fixpoint power_loop (todo : nat) (i : nat) (X : matrix F) (dangle : list F)
    (alpha : F) (n : nat) (tol : F) (last : option F) (scores : list F)
  : loop_exit :=
  match todo with
  | 0 => LoopExit scores i last false
  | S todo =>
      let prev_scores := scores in
      let scores := power_update X dangle alpha n prev_scores in
      let err := error scores prev_scores in
      if ltf err (of_nat n ⊗ tol) then LoopExit scores (S i) (Some err) true
      else power_loop todo (S i) X dangle alpha n tol (Some err) scores
  end.

(** [centrality_scores(X, alpha, max_iter, tol)] run in the store [σ]: the
    state of the loop at the return (or the exception) and the store
    after the call. The function has no statement before the
    normalization that looks at [alpha], [max_iter] or [tol]. With
    [n = 0] the division [1.0 / n] of the [dangle] line raises
    ZeroDivisionError. [range(max_iter)] is empty for [max_iter <= 0]. *)
Definition run (X : loc) (alpha : F) (max_iter : Z) (tol : F) (σ : store F)
  : result loop_exit * store F :=
  let n := (shape (σ !!! X)).1 in
  let '(X, σ) := copy X σ in
  let incoming_counts := row_sums (σ !!! X) in
  let σ := normalize X incoming_counts σ in
  match n with
  | 0 => (Raise ZeroDivisionError, σ)
  | S _ =>
      let dangle := dangle_vector (σ !!! X) n in
      let scores := replicate n (one ⊘ of_nat n) in
      (Ok (power_loop (Z.to_nat max_iter) 0 (σ !!! X) dangle alpha n tol None scores), σ)
  end.

(** The score vector after [k] updates in a call on the matrix [M]. *)
Definition scores_after (M : matrix F) (alpha : F) (k : nat) : list F :=
  let n := dim M in
  let X := normalize_rows (row_sums M) M in
  Nat.iter k (power_update X (dangle_vector X n) alpha n)
           (replicate n (one ⊘ of_nat n)).

Definition centrality_scores (X : loc) (alpha : F) (max_iter : Z) (tol : F)
    (σ : store F) : result (list F) * store F :=
  let '(r, σ) := run X alpha max_iter tol σ in
  (final_scores <$> r, σ).

End centrality.
End Centrality.

(** ** Sample inputs *)

(** One iteration order of [redirects.keys()]. *)
Definition dict_keys (redirects : gmap string string) : list string :=
  (map_to_list redirects).*1.

(** The redirect cycle A → B → C → A. *)
Definition abc_cycle : gmap string string :=
  <["A" := "B"]> (<["B" := "C"]> (<["C" := "A"]> ∅)).

(** The redirect chain A → B → C. *)
Definition ab_chain : gmap string string := <["A" := "B"]> (<["B" := "C"]> ∅).

(** Its closure. *)
Definition ab_closed : gmap string string := <["A" := "C"]> (<["B" := "C"]> ∅).

(** The statement "[a] links to [b]" of the page-links file. *)
Definition link_line (a b : string) : string :=
  "<http://dbpedia.org/resource/" +:+ a +:+ "> <http://dbpedia.org/property/wikilink> <http://dbpedia.org/resource/"
    +:+ b +:+ "> .".

(** A stream with malformed lines before and after the first statement. *)
Definition sample_stream : list string :=
  ["not a statement"; link_line "A" "X"; "bad"; link_line "B" "X";
   link_line "C" "Y"; link_line "X" "Y"].

(** The numerators and denominators of a vector of rationals. *)
Definition values (r : result (list Qc)) : result (list Q) :=
  (λ v : list Qc, this <$> v) <$> r.

(** The 2-node graph with the single edge 0 → 1, as object 0 of a store. *)
Definition edge01 : matrix Qc := Matrix 2 (<[(0, 1) := 1%Qc]> ∅).
Definition edge01_store : gmap nat (matrix Qc) := <[0 := edge01]> ∅.

(** The state in which a call with [max_iter = 1] and [tol = 1e-10] on
    that graph returns. *)
Definition edge01_exit : Centrality.loop_exit (F := Qc) :=
  match (Centrality.run 0 (Q2Qc (17 # 20)) 1 (Q2Qc (1 # 10000000000))
           edge01_store).1 with
  | Ok exit => exit
  | _ => Centrality.LoopExit [] 0 None false
  end.

(** ** Tokens and statements *)

(** A string without whitespace. *)
Fixpoint no_space (s : string) : bool :=
  match s with
  | "" => true
  | String a s => negb (Ascii.is_space a) && no_space s
  end.

(** A string of whitespace only, as the end of a line. *)
Fixpoint blank (s : string) : bool :=
  match s with
  | "" => true
  | String a s => Ascii.is_space a && blank s
  end.

(** The line feed that ends the lines of a file. *)
Definition newline : string := String (Ascii.ascii_of_nat 10) "".

(** A token of [line.split()]: not empty, no whitespace. *)
Definition token (s : string) : Prop := s ≠ "" ∧ no_space s = true.

(** The URI of an article name, between its markers. *)
Definition uri (name : string) : string :=
  "<http://dbpedia.org/resource/" +:+ name +:+ ">".

(** A statement line: subject, predicate, object and the final dot,
    separated by single spaces. *)
Definition statement (s p o : string) : string :=
  s +:+ " " +:+ p +:+ " " +:+ o +:+ " .".

(** ** Closed redirect dicts *)

(** No target of the dict has an entry of its own. *)
Definition closed (redirects : gmap string string) : Prop :=
  ∀ k v, redirects !! k = Some v → redirects !! v = None.

(** ** Names, ids and the limit *)

(** [redirects.get(k, k)] *)
Definition resolve (redirects : gmap string string) (k : string) : string :=
  default k (redirects !! k).

(** [names = dict((i, name) for name, i in iteritems(index_map))], the
    items being given in the order of iteration. *)
Definition names_of (items : list (string * nat)) : gmap nat string :=
  foldl (λ names item, <[item.2 := item.1]> names) ∅ items.

(** The lines up to and including the first statement. *)
Fixpoint upto_statement (lines : list string) : list string :=
  match lines with
  | [] => []
  | line :: lines =>
      match NT.parse_line line with
      | Some _ => [line]
      | None => line :: upto_statement lines
      end
  end.

(** The lines that [get_adjacency_matrix] reads under [limit]: the first
    [limit - 1] lines and then the lines up to the next statement. *)
Definition cutoff (limit : Z) (lines : list string) : list string :=
  take (Z.to_nat (limit - 1)) lines
  ++ upto_statement (drop (Z.to_nat (limit - 1)) lines).

(** The statements among the lines, as pairs of short names. *)
Definition statements (lines : list string) : list (string * string) :=
  omap NT.parse_line lines.

(** The lines that [get_adjacency_matrix] reads: all of them without a
    limit. *)
Definition lines_read (limit : option Z) (lines : list string) : list string :=
  match limit with
  | Some m => cutoff m lines
  | None => lines
  end.

(** Different names have different ids. *)
Definition injective (index_map : gmap string nat) : Prop :=
  ∀ k1 k2 i, index_map !! k1 = Some i → index_map !! k2 = Some i → k1 = k2.

(** ** The convergence test *)

(** The test [err < n * tol] of the iteration that makes update number
    [k + 1] in a call on the matrix [M]. *)
Definition test_passed {F : Type} `{Arith F} (M : matrix F) (alpha tol : F)
    (k : nat) : bool :=
  ltf (Centrality.error (Centrality.scores_after M alpha (S k))
                        (Centrality.scores_after M alpha k))
      (of_nat (dim M) ⊗ tol).



(** * Properties *)

(** ** The redirect closure *)

Section redirect_facts.
Import Redirects.
Implicit Types (m : gmap string string) (seen : gset string).

Lemma size_map_img_le m : size (map_img m : gset string) ≤ size m.
Proof.
  induction m as [|k v m Hk IH] using map_ind.
  - rewrite map_img_empty_L, size_empty. lia.
  - rewrite map_img_insert_notin_L, map_size_insert_None by done.
    rewrite size_union_alt, size_singleton.
    pose proof (subseteq_size (map_img m ∖ {[v]}) (map_img m : gset string)) as Hs.
    assert (map_img m ∖ {[v]} ⊆ (map_img m : gset string)) by set_solver.
    specialize (Hs ltac:(done)). lia.
Qed.

Lemma hop_mono m m' a b :
  (∀ x y, hop m x y → tc (hop m') x y) → tc (hop m) a b → tc (hop m') a b.
Proof.
  intros Hsub Htc. induction Htc as [x y Hxy|x y z Hxy _ IH].
  - by apply Hsub.
  - etrans; [by apply Hsub|done].
Qed.

Lemma walk_terminates fuel m target seen :
  size (map_img m ∖ seen : gset string) < fuel →
  ∃ t, walk fuel m target seen = Ok t.
Proof.
  revert target seen. induction fuel as [|fuel IH]; intros target seen Hsz; [lia|].
  simpl. destruct (m !! target) as [t'|] eqn:Hm; [|by eauto].
  case_decide as Hin; [by eauto|].
  apply IH.
  assert (t' ∈ (map_img m : gset string)) by (by eapply elem_of_map_img_2).
  assert (map_img m ∖ ({[t']} ∪ seen) ⊂ (map_img m ∖ seen : gset string)) as Hss
    by set_solver.
  apply subset_size in Hss. lia.
Qed.

Lemma walk_spec fuel m target seen tt :
  walk fuel m target seen = Ok tt →
  (∀ s, s ∈ seen → rtc (hop m) s target) →
  rtc (hop m) target tt ∧
  (m !! tt = None ∨ ∃ t', m !! tt = Some t' ∧ rtc (hop m) t' tt).
Proof.
  revert target seen. induction fuel as [|fuel IH]; intros target seen Hw Hseen;
    [done|].
  simpl in Hw. destruct (m !! target) as [t'|] eqn:Hm.
  - case_decide as Hin.
    + injection Hw as <-. split; [done|]. right. eauto.
    + apply IH in Hw as [Hr Hend].
      * split; [|done]. by eapply rtc_l.
      * intros s [->%elem_of_singleton|Hs]%elem_of_union; [done|].
        eapply rtc_r; [by apply Hseen|done].
  - injection Hw as <-. split; [done|]. by left.
Qed.

Lemma closing_refl m : closing m m.
Proof. split; [done|]. intros k v Hk. by apply tc_once. Qed.

Lemma closing_size m0 m : closing m0 m → size m = size m0.
Proof. intros [Hdom _]. by rewrite <-!size_dom, Hdom. Qed.

Lemma closing_tc m0 m a b : closing m0 m → tc (hop m) a b → tc (hop m0) a b.
Proof. intros [_ Hv]. apply hop_mono. intros x y. apply Hv. Qed.

Lemma close_key_spec m0 fuel m source :
  closing m0 m → size m0 < fuel → is_Some (m0 !! source) →
  ∃ t, close_key fuel m source = Ok (<[source := t]> m) ∧
       closing m0 (<[source := t]> m) ∧
       (acyclic m0 → m0 !! t = None).
Proof.
  intros Hcl Hfuel Hsrc. pose proof Hcl as [Hdom Hv].
  assert (is_Some (m !! source)) as [target Htarget].
  { by rewrite <-elem_of_dom, Hdom, elem_of_dom. }
  destruct (walk_terminates fuel m target {[source]}) as [t Hw].
  { pose proof (size_map_img_le m) as Hle.
    pose proof (subseteq_size (map_img m ∖ {[source]}) (map_img m : gset string))
      as Hs.
    rewrite (closing_size m0 m) in Hle by done.
    assert (size (map_img m ∖ {[source]} : gset string)
            ≤ size (map_img m : gset string)); [|lia].
    apply Hs. set_solver. }
  exists t. unfold close_key. rewrite Htarget, Hw. split; [done|].
  apply walk_spec in Hw as [Hreach Hend].
  2:{ intros s ->%elem_of_singleton. by apply rtc_once. }
  assert (tc (hop m) source t) as Htc by (by eapply tc_rtc_r; [apply tc_once|]).
  split; [split|].
  - rewrite dom_insert_L, Hdom. apply elem_of_dom in Hsrc. set_solver.
  - intros k v. rewrite lookup_insert. case_decide as Hk.
    + intros [= <-]. subst k. by eapply closing_tc.
    + apply Hv.
  - intros Hacyc. destruct Hend as [Hnone|(t' & Ht' & Hback)].
    + apply not_elem_of_dom. rewrite <-Hdom. by apply not_elem_of_dom.
    + destruct (Hacyc t). eapply closing_tc; [done|].
      eapply tc_rtc_r; [by apply tc_once|done].
Qed.

Lemma close_keys_spec m0 fuel ks m :
  closing m0 m → size m0 < fuel → (∀ k, k ∈ ks → is_Some (m0 !! k)) →
  ∃ m', close_keys fuel ks m = Ok m' ∧ closing m0 m' ∧
        (∀ k, k ∉ ks → m' !! k = m !! k) ∧
        (acyclic m0 → ∀ k, k ∈ ks → ∃ t, m' !! k = Some t ∧ m0 !! t = None).
Proof.
  revert m. induction ks as [|source ks IH]; intros m Hcl Hfuel Hks.
  - exists m. simpl. split; [done|]. split; [done|]. split; [done|].
    intros _ k Hk. by apply elem_of_nil in Hk.
  - destruct (close_key_spec m0 fuel m source) as (t & Hck & Hcl1 & Hfin);
      [done|done|apply Hks; left|].
    destruct (IH (<[source := t]> m)) as (m' & Hrest & Hcl' & Hout & Hin);
      [done|done|intros k Hk; apply Hks; by right|].
    exists m'. simpl. rewrite Hck. simpl. split; [done|]. split; [done|]. split.
    + intros k Hk. rewrite Hout by set_solver.
      apply lookup_insert_ne. set_solver.
    + intros Hacyc k Hk. destruct (decide (k ∈ ks)) as [Hkks|Hkks].
      * by apply Hin.
      * assert (k = source) as -> by set_solver.
        exists t. rewrite Hout by done. rewrite lookup_insert_eq. auto.
Qed.

Lemma keys_of_elem m ks k : keys_of m ks → k ∈ ks ↔ is_Some (m !! k).
Proof. intros [_ Hdom]. by rewrite <-elem_of_dom, <-Hdom, elem_of_list_to_set. Qed.

Lemma walk_stops_at fuel m target seen t :
  walk fuel m target seen = Ok t → stops_at m target seen t.
Proof.
  revert target seen. induction fuel as [|fuel IH]; intros target seen Hw; [done|].
  simpl in Hw. destruct (m !! target) as [t'|] eqn:Hm.
  - case_decide as Hin.
    + injection Hw as <-. exists []. split; [by intros [|i] a b|].
      split; [done|]. split; [constructor|]. split; [by intros x ?%elem_of_nil|].
      right. eauto.
    + apply IH in Hw as (path & Hfol & Hlast & Hnd & Hnew & Hend).
      exists (t' :: path). split; [|split; [|split; [|split]]].
      * intros [|i] a b Ha Hb; simpl in *.
        { injection Ha as <-. injection Hb as <-. done. }
        by eapply Hfol.
      * done.
      * constructor; [|done]. intros Hp%Hnew. set_solver.
      * intros x [->|Hx]%elem_of_cons; [done|]. apply Hnew in Hx. set_solver.
      * destruct Hend as [Hnone|(t'' & Ht'' & [Hs|Hp])]; [by left|right..].
        { exists t''. split; [done|].
          apply elem_of_union in Hs as [->%elem_of_singleton|Hs]; [right; left|by left]. }
        exists t''. split; [done|]. right. by right.
  - injection Hw as <-. exists []. split; [by intros [|i] a b|].
    split; [done|]. split; [constructor|]. split; [by intros x ?%elem_of_nil|].
    by left.
Qed.


(** C1. For a redirect map [m] without cycles, the closure pass of
    [get_redirects] returns a dict in which every key of [m] maps to a name
    that ends the key's chain: it is reached from the key by hops of [m]
    and has no entry in [m]. *)
Theorem closure_acyclic_final m ks :
  acyclic m → keys_of m ks →
  ∃ m', transitive_closure ks m = Ok m' ∧
        dom m' = dom m ∧
        ∀ k, is_Some (m !! k) →
             ∃ t, m' !! k = Some t ∧ m !! t = None ∧ tc (hop m) k t.
Proof.
  intros Hacyc Hks.
  destruct (close_keys_spec m (S (size m)) ks m) as (m' & Hrun & Hcl & _ & Hfin);
    [apply closing_refl|lia|intros k; by apply keys_of_elem|].
  exists m'. split; [done|]. destruct Hcl as [Hdom Hv]. split; [done|].
  intros k Hk. destruct (Hfin Hacyc k) as (t & Ht & Hnone).
  { by apply (keys_of_elem m ks k Hks). }
  exists t. split; [done|]. split; [done|]. by apply Hv.
Qed.

Lemma dict_keys_spec m : keys_of m (dict_keys m).
Proof.
  split; [apply NoDup_fst_map_to_list|].
  apply leibniz_equiv. by rewrite dom_alt.
Qed.

(** [get_redirects] returns, with a dict over the names the file redirects. *)
Lemma get_redirects_returns keys lines :
  keys_of (parse lines) (keys (parse lines)) →
  ∃ m', get_redirects keys lines = Ok m' ∧ dom m' = dom (parse lines).
Proof.
  intros Hks. unfold get_redirects, transitive_closure.
  destruct (close_keys_spec (parse lines) (S (size (parse lines)))
              (keys (parse lines)) (parse lines)) as (m' & Hrun & [Hdom _] & _);
    [apply closing_refl|lia|intros k; by apply keys_of_elem|].
  eauto.
Qed.

(** A dict on which some measure decreases along every entry has no cycle. *)
Lemma ranked_acyclic m (rank : string → nat) :
  map_Forall (λ a b, rank b < rank a) m → acyclic m.
Proof.
  intros Hrank.
  assert (∀ a b, tc (hop m) a b → rank b < rank a) as Hlt.
  { intros a b Htc. induction Htc as [x y Hxy|x y z Hxy _ IH].
    - by apply Hrank in Hxy.
    - apply Hrank in Hxy. lia. }
  intros k Hk. apply Hlt in Hk. lia.
Qed.

Lemma ab_chain_acyclic : acyclic ab_chain.
Proof.
  apply (ranked_acyclic _ (λ s, if decide (s = "A") then 2 else
                                 if decide (s = "B") then 1 else 0)).
  unfold ab_chain. apply map_Forall_insert_2; [simpl; lia|].
  apply map_Forall_insert_2; [simpl; lia|]. apply map_Forall_empty.
Qed.

Lemma ab_chain_keys : keys_of ab_chain ["A"; "B"].
Proof. split; [by repeat constructor; set_solver|]. vm_compute. reflexivity. Qed.

Lemma closure_acyclic_final_witness :
  acyclic ab_chain ∧ keys_of ab_chain ["A"; "B"] ∧
  ∃ m', transitive_closure ["A"; "B"] ab_chain = Ok m' ∧
        dom m' = dom ab_chain ∧
        ∀ k, is_Some (ab_chain !! k) →
             ∃ t, m' !! k = Some t ∧ ab_chain !! t = None ∧ tc (hop ab_chain) k t.
Proof.
  split; [exact ab_chain_acyclic|]. split; [exact ab_chain_keys|].
  exact (closure_acyclic_final ab_chain ["A"; "B"] ab_chain_acyclic ab_chain_keys).
Defined.

Lemma abc_cycle_keys : keys_of abc_cycle ["A"; "B"; "C"].
Proof. split; [by repeat constructor; set_solver|]. vm_compute. reflexivity. Qed.


Example closure_of_cycle :
  transitive_closure ["A"; "B"; "C"] abc_cycle
  = Ok (<["A" := "C"]> (<["B" := "C"]> (<["C" := "A"]> ∅))).
Proof. vm_compute. reflexivity. Qed.

Example closure_of_cycle_reversed :
  transitive_closure ["C"; "B"; "A"] abc_cycle
  = Ok (<["A" := "B"]> (<["B" := "C"]> (<["C" := "B"]> ∅))).
Proof. vm_compute. reflexivity. Qed.

Example closure_of_self_loop :
  transitive_closure ["A"] (<["A" := "A"]> ∅) = Ok (<["A" := "A"]> ∅).
Proof. vm_compute. reflexivity. Qed.

Example closure_of_chain :
  transitive_closure ["A"; "B"] ab_chain
  = Ok (<["A" := "C"]> (<["B" := "C"]> ∅)).
Proof. vm_compute. reflexivity. Qed.

End redirect_facts.

(** ** Building the graph *)

Section graph_facts.
Context {F : Type} `{Arith F}.
Import Graph.
Implicit Types (redirects : gmap string string) (index_map im : gmap string nat)
  (links : list (nat * nat)).

Lemma dense_empty : dense ∅.
Proof.
  intros i. rewrite map_size_empty. split; [|lia].
  intros [k Hk]. by rewrite lookup_empty in Hk.
Qed.

Lemma dense_insert im k :
  dense im → im !! k = None → dense (<[k := size im]> im).
Proof.
  intros Hd Hk i. rewrite map_size_insert_None by done. split.
  - intros [k' Hk']. rewrite lookup_insert in Hk'. case_decide.
    + injection Hk' as <-. lia.
    + assert (i < size im) by (apply Hd; eauto). lia.
  - intros Hi. destruct (decide (i = size im)) as [->|Hne].
    + exists k. by rewrite lookup_insert_eq.
    + destruct (proj2 (Hd i)) as [k' Hk']; [lia|].
      exists k'. rewrite lookup_insert_ne; [done|]. congruence.
Qed.

Lemma index_spec redirects im k :
  dense im →
  ∃ i im', index redirects im k = (i, im') ∧
    im' !! default k (redirects !! k) = Some i ∧
    (im !! default k (redirects !! k) = Some i ∧ im' = im ∨
     im !! default k (redirects !! k) = None ∧ i = size im ∧
       im' = <[default k (redirects !! k) := size im]> im) ∧
    dense im' ∧ i < size im' ∧ size im ≤ size im'.
Proof.
  intros Hd. unfold index. set (k' := default k (redirects !! k)).
  destruct (im !! k') as [i|] eqn:Hk'.
  - exists i, im. split; [done|]. split; [done|]. split; [by left|].
    split; [done|]. split; [|done]. apply Hd. eauto.
  - exists (size im), (<[k' := size im]> im).
    rewrite lookup_insert_eq, map_size_insert_None by done.
    split; [done|]. split; [done|]. split; [by right|].
    split; [by apply dense_insert|]. lia.
Qed.

Lemma in_bounds_mono n n' links : in_bounds n links → n ≤ n' → in_bounds n' links.
Proof. intros Hb Hle i j Hij. apply Hb in Hij. lia. Qed.

Lemma in_bounds_snoc n links i j :
  in_bounds n links → i < n → j < n → in_bounds n (links ++ [(i, j)]).
Proof.
  intros Hb Hi Hj i' j' [Hin|Hin]%elem_of_app; [by apply Hb|].
  apply list_elem_of_singleton in Hin. by injection Hin as -> ->.
Qed.

Lemma ingest_inv redirects limit l lines im links :
  dense im → in_bounds (size im) links →
  dense (ingest redirects limit l lines im links).1 ∧
  in_bounds (size (ingest redirects limit l lines im links).1)
            (ingest redirects limit l lines im links).2.
Proof.
  revert l im links. induction lines as [|line lines IH]; intros l im links Hd Hb;
    [done|].
  simpl. destruct (NT.parse_line line) as [[s o]|]; [|by apply IH].
  destruct (index_spec redirects im s Hd) as (i & im1 & -> & _ & _ & Hd1 & Hi & Hle1).
  destruct (index_spec redirects im1 o Hd1) as (j & im2 & -> & _ & _ & Hd2 & Hj & Hle2).
  assert (in_bounds (size im2) (links ++ [(i, j)])) as Hb2.
  { apply in_bounds_snoc; [|lia|done]. eapply in_bounds_mono; [done|lia]. }
  destruct (limit_reached limit l); [done|by apply IH].
Qed.

Lemma fill_spec links (X : matrix F) :
  in_bounds (dim X) links →
  ∃ X', fill links X = Ok X' ∧ dim X' = dim X ∧
    ∀ i j, cells X' !! (i, j)
           = if decide ((i, j) ∈ links) then Some one else cells X !! (i, j).
Proof.
  revert X. induction links as [|[i j] links IH]; intros X Hb.
  - exists X. split; [done|]. split; [done|]. intros i j.
    case_decide as Hin; [|done].
    by apply elem_of_nil in Hin.
  - assert (i < dim X ∧ j < dim X) as Hij by (apply Hb; left).
    destruct (IH (Matrix (dim X) (<[(i, j) := one]> (cells X)))) as (X' & Hf & Hdim & Hc).
    { intros i' j' Hin. apply Hb. by right. }
    exists X'. simpl. unfold setitem. rewrite decide_True by done. simpl.
    split; [done|]. split; [done|]. intros i' j'. rewrite Hc. simpl.
    destruct (decide ((i', j') = (i, j))) as [Heq|Hne].
    + rewrite Heq, lookup_insert_eq, (decide_True (P := (i, j) ∈ (i, j) :: links))
        by left. by case_decide.
    + rewrite lookup_insert_ne by done.
      case_decide as Hin.
      * rewrite decide_True; [done|by right].
      * rewrite decide_False; [done|]. intros [?|?]%elem_of_cons; done.
Qed.

Lemma ingest_no_limit redirects l l' lines im links :
  ingest redirects None l lines im links = ingest redirects None l' lines im links.
Proof.
  revert l l' im links. induction lines as [|line lines IH]; intros l l' im links;
    [done|].
  simpl. destruct (NT.parse_line line) as [[s o]|]; [|by apply IH].
  destruct (index redirects im s) as [i im1].
  destruct (index redirects im1 o) as [j im2]. by apply IH.
Qed.

Lemma ingest_prefix redirects limit l lines im links :
  ∃ n, ingest redirects limit l lines im links
       = ingest redirects None l (take n lines) im links.
Proof.
  revert l im links. induction lines as [|line lines IH]; intros l im links.
  - by exists 0.
  - simpl. destruct (NT.parse_line line) as [[s o]|] eqn:Hline.
    + destruct (index redirects im s) as [i im1] eqn:Hi.
      destruct (index redirects im1 o) as [j im2] eqn:Hj.
      destruct (limit_reached limit l).
      * exists 1. simpl. by rewrite Hline, Hi, Hj.
      * destruct (IH (S l) im2 (links ++ [(i, j)])) as [n Hn].
        exists (S n). simpl. by rewrite Hline, Hi, Hj.
    + destruct (IH (S l) im links) as [n Hn].
      exists (S n). simpl. by rewrite Hline.
Qed.

Lemma ingest_length redirects (m : Z) l lines im links :
  (Z.of_nat (length links) ≤ Z.of_nat l)%Z →
  (Z.of_nat (length links) ≤ m - 1)%Z →
  (Z.of_nat (length (ingest redirects (Some m) l lines im links).2) ≤ m)%Z.
Proof.
  revert l im links. induction lines as [|line lines IH]; intros l im links Hl Hm.
  - simpl. lia.
  - simpl. destruct (NT.parse_line line) as [[s o]|].
    + destruct (index redirects im s) as [i im1].
      destruct (index redirects im1 o) as [j im2].
      case_bool_decide as Hlim; simpl.
      * rewrite length_app. simpl. lia.
      * apply IH; rewrite length_app; simpl; lia.
    + apply IH; lia.
Qed.

(** C6. With a positive limit [m], [get_adjacency_matrix] records at most
    [m] link pairs, and what it records (index map and link pairs) is what
    the loop without a limit records on a prefix of the stream, whatever
    lines of the stream are malformed. *)
Theorem limit_is_prefix_cutoff redirects (m : Z) (lines : list string) :
  (0 < m)%Z →
  (Z.of_nat (length (ingest redirects (Some m) 0 lines ∅ []).2) ≤ m)%Z ∧
  ∃ n, ingest redirects (Some m) 0 lines ∅ []
       = ingest redirects None 0 (take n lines) ∅ [].
Proof.
  intros Hm. split.
  - apply ingest_length; simpl; lia.
  - apply ingest_prefix.
Qed.

(** The matrix filled from link pairs within the shape. *)
Lemma fill_cells (n : nat) links :
  in_bounds n links →
  ∃ X : matrix F, fill links (lil_matrix n) = Ok X ∧ dim X = n ∧
    (∀ i j, cells X !! (i, j) = if decide ((i, j) ∈ links) then Some one else None) ∧
    (∀ i j, cell X i j = one ∨ cell X i j = zero) ∧
    (one ≠ zero → ∀ i j, cell X i j = one ↔ (i, j) ∈ links).
Proof.
  intros Hb. destruct (fill_spec links (lil_matrix n) Hb) as (X & Hf & Hdim & Hc).
  assert (∀ i j, cells X !! (i, j)
                 = if decide ((i, j) ∈ links) then Some one else None) as Hc'.
  { intros i j. rewrite Hc. case_decide; [done|]. apply lookup_empty. }
  clear Hc. rename Hc' into Hc.
  exists X. split; [done|]. split; [done|]. split; [done|]. split.
  - intros i j. unfold cell. rewrite Hc. case_decide; auto.
  - intros Hne i j. unfold cell. rewrite Hc. case_decide; simpl; [done|].
    split; [intros Heq; by destruct Hne|done].
Qed.

(** C7. Whatever the redirect map, the stream and the limit,
    [get_adjacency_matrix] returns a matrix whose stored cells are exactly
    the recorded link pairs, each holding 1.0 however often the pair was
    recorded (also when different raw links resolve to it); so a cell reads
    1.0 or 0.0, and it reads 1.0 exactly when its pair was recorded. *)
Theorem adjacency_cells_collapse redirects (page_links : list string)
    (limit : option Z) :
  let '(index_map, links) := ingest redirects limit 0 page_links ∅ [] in
  ∃ X : matrix F,
    build redirects page_links limit = Ok (X, redirects, index_map) ∧
    dim X = size index_map ∧
    (∀ i j, cells X !! (i, j) = if decide ((i, j) ∈ links) then Some one else None) ∧
    (∀ i j, cell X i j = one ∨ cell X i j = zero) ∧
    (one ≠ zero → ∀ i j, cell X i j = one ↔ (i, j) ∈ links).
Proof.
  unfold build.
  pose proof (ingest_inv redirects limit 0 page_links ∅ [] dense_empty) as Hinv.
  destruct (ingest redirects limit 0 page_links ∅ []) as [im links].
  destruct Hinv as [_ Hb]; [intros i j Hij; by apply elem_of_nil in Hij|].
  destruct (fill_cells (size im) links Hb) as (X & Hf & Hrest).
  exists X. by rewrite Hf.
Qed.

(** C10. [index] gives a new name the id [len(index_map)] and an existing
    name the id it has; it keeps the ids of the map equal to
    [0 .. len(index_map) - 1]. After ingesting any stream of lines (so at
    every point of the loop) the ids are [0 .. N - 1] for the current
    [N = len(index_map)], every recorded pair is below [N], and every
    assignment into the [N]×[N] matrix succeeds. *)
Theorem index_ids_in_bounds redirects (limit : option Z) (lines : list string) :
  (∀ index_map k, dense index_map →
     ∃ i index_map', index redirects index_map k = (i, index_map') ∧
       (index_map !! default k (redirects !! k) = Some i ∧ index_map' = index_map ∨
        index_map !! default k (redirects !! k) = None ∧ i = size index_map ∧
          index_map' = <[default k (redirects !! k) := size index_map]> index_map) ∧
       dense index_map' ∧ i < size index_map') ∧
  let '(index_map, links) := ingest redirects limit 0 lines ∅ [] in
  dense index_map ∧ in_bounds (size index_map) links ∧
  ∃ X : matrix F, fill links (lil_matrix (size index_map)) = Ok X.
Proof.
  split.
  - intros im k Hd.
    destruct (index_spec redirects im k Hd) as (i & im' & Hi & _ & Hcase & Hd' & Hlt & _).
    eauto 10.
  - pose proof (ingest_inv redirects limit 0 lines ∅ [] dense_empty) as Hinv.
    destruct (ingest redirects limit 0 lines ∅ []) as [im links].
    destruct Hinv as [Hd Hb]; [intros i j Hij; by apply elem_of_nil in Hij|].
    simpl in *. split; [done|]. split; [done|].
    destruct (fill_spec links (lil_matrix (size im))) as (X & Hf & _); [done|].
    eauto.
Qed.

End graph_facts.

Lemma limit_is_prefix_cutoff_witness :
  (0 < 2)%Z ∧
  (Z.of_nat (length (Graph.ingest ab_closed (Some 2%Z) 0 sample_stream ∅ []).2) ≤ 2)%Z ∧
  ∃ n, Graph.ingest ab_closed (Some 2%Z) 0 sample_stream ∅ []
       = Graph.ingest ab_closed None 0 (take n sample_stream) ∅ [].
Proof.
  assert (0 < 2)%Z as Hm by lia.
  split; [exact Hm|].
  exact (limit_is_prefix_cutoff ab_closed 2%Z sample_stream Hm).
Defined.

Example limit_counts_lines :
  (Graph.ingest ab_closed (Some 2%Z) 0 sample_stream ∅ []).2 = [(0, 1)] ∧
  (Graph.ingest ab_closed (Some 3%Z) 0 sample_stream ∅ []).2 = [(0, 1); (0, 1)] ∧
  (Graph.ingest ab_closed None 0 sample_stream ∅ []).2
    = [(0, 1); (0, 1); (0, 2); (1, 2)].
Proof. vm_compute. repeat split. Qed.

(** The scenario of two redirects A → B → C and the links A → X, B → X,
    C → Y: the sources collapse onto C, and the two links into X onto one
    cell. *)
Example adjacency_of_scenario :
  Graph.get_adjacency_matrix dict_keys
    [link_line "A" "B"; link_line "B" "C"]
    [link_line "A" "X"; link_line "B" "X"; link_line "C" "Y"] None
  = Ok (Matrix 3 (<[(0, 1) := 1%Qc]> (<[(0, 2) := 1%Qc]> ∅)),
        <["A" := "C"]> (<["B" := "C"]> ∅),
        <["C" := 0]> (<["X" := 1]> (<["Y" := 2]> ∅))).
Proof. vm_compute. reflexivity. Qed.

(** ** The power iteration: control flow and store *)

Section centrality_facts.
Context {F : Type} `{Arith F}.
Import Centrality.
Implicit Types (σ : store F) (X Y : loc) (M : matrix F).

Lemma copy_fresh X σ : σ !! (copy X σ).1 = None.
Proof. simpl. apply not_elem_of_dom, is_fresh. Qed.

Lemma normalize_store X counts σ :
  is_Some (σ !! X) →
  normalize X counts σ = <[X := normalize_rows counts (σ !!! X)]> σ.
Proof.
  unfold normalize, normalize_rows. generalize (nonzero counts) as rows.
  intros rows. revert σ. induction rows as [|i rows IH]; intros σ [M HM].
  - simpl. rewrite insert_id; [done|]. by rewrite (lookup_total_correct _ _ _ HM).
  - simpl. rewrite IH by (rewrite lookup_insert_eq; eauto).
    by rewrite lookup_total_insert_eq, insert_insert_eq.
Qed.

(** The store after a call: the caller's store with one more object, the
    normalized working copy. *)
Lemma run_store X alpha max_iter tol σ :
  (run X alpha max_iter tol σ).2
  = <[fresh (dom σ) := normalize_rows (row_sums (σ !!! X)) (σ !!! X)]> σ.
Proof.
  unfold run, copy. rewrite lookup_total_insert_eq.
  rewrite normalize_store by (rewrite lookup_insert_eq; eauto).
  rewrite lookup_total_insert_eq, insert_insert_eq.
  by destruct (shape (σ !!! X)).1.
Qed.

Lemma centrality_scores_store X alpha max_iter tol σ :
  (centrality_scores X alpha max_iter tol σ).2 = (run X alpha max_iter tol σ).2.
Proof. unfold centrality_scores. by destruct (run X alpha max_iter tol σ). Qed.

Lemma centrality_scores_value X alpha max_iter tol σ :
  (centrality_scores X alpha max_iter tol σ).1
  = final_scores <$> (run X alpha max_iter tol σ).1.
Proof. unfold centrality_scores. by destruct (run X alpha max_iter tol σ). Qed.

(** The value of a call on a matrix with at least one row. *)
Lemma run_value X alpha max_iter tol σ :
  dim (σ !!! X) ≠ 0 →
  (run X alpha max_iter tol σ).1
  = let n := dim (σ !!! X) in
    let X' := normalize_rows (row_sums (σ !!! X)) (σ !!! X) in
    Ok (power_loop (Z.to_nat max_iter) 0 X' (dangle_vector X' n) alpha n tol None
          (replicate n (one ⊘ of_nat n))).
Proof.
  intros Hn. unfold run, copy. rewrite lookup_total_insert_eq.
  rewrite normalize_store by (rewrite lookup_insert_eq; eauto).
  rewrite !lookup_total_insert_eq. simpl.
  by destruct (dim (σ !!! X)).
Qed.

Lemma power_loop_exhausted todo i (M : matrix F) dangle alpha n tol last scores :
  early_return (power_loop todo i M dangle alpha n tol last scores) = false →
  final_scores (power_loop todo i M dangle alpha n tol last scores)
    = Nat.iter todo (power_update M dangle alpha n) scores ∧
  updates (power_loop todo i M dangle alpha n tol last scores) = todo + i.
Proof.
  revert i last scores. induction todo as [|todo IH]; intros i last scores Hret;
    [done|].
  simpl in *. destruct (ltf _ _); [done|].
  apply IH in Hret as [-> ->]. split; [|lia].
  by rewrite <-Nat.iter_succ, Nat.iter_succ_r.
Qed.


(** C9. A call of [centrality_scores] leaves every matrix of the caller's
    store as it was, the argument included: the rows are rescaled in a copy
    that the call allocates, and the store after the call is the caller's
    store plus that copy. *)
Theorem caller_matrix_unchanged X alpha max_iter tol σ M :
  σ !! X = Some M →
  (centrality_scores X alpha max_iter tol σ).2 !! X = Some M ∧
  (∀ Y M', σ !! Y = Some M' →
           (centrality_scores X alpha max_iter tol σ).2 !! Y = Some M') ∧
  σ !! fresh (dom σ) = None ∧
  (centrality_scores X alpha max_iter tol σ).2
    = <[fresh (dom σ) := normalize_rows (row_sums M) M]> σ.
Proof.
  intros HX. rewrite centrality_scores_store, run_store.
  rewrite (lookup_total_correct _ _ _ HX).
  assert (σ !! fresh (dom σ) = None) as Hfresh by apply not_elem_of_dom, is_fresh.
  assert (∀ Y M', σ !! Y = Some M' →
            <[fresh (dom σ) := normalize_rows (row_sums M) M]> σ !! Y = Some M')
    as Hframe.
  { intros Y M' HY. rewrite lookup_insert_ne; [done|]. congruence. }
  auto.
Qed.

(** C3, as the code has it. [centrality_scores] does not validate [alpha],
    [max_iter] or [tol]: on a matrix with at least one row the call
    returns a score vector whatever their values, and with
    [max_iter <= 0] that vector is the uniform initial guess. *)
Theorem no_parameter_validation X alpha max_iter tol σ :
  dim (σ !!! X) ≠ 0 →
  ∃ scores, (centrality_scores X alpha max_iter tol σ).1 = Ok scores ∧
    ((max_iter ≤ 0)%Z →
     scores = replicate (dim (σ !!! X)) (one ⊘ of_nat (dim (σ !!! X)))).
Proof.
  intros Hn. rewrite centrality_scores_value, run_value by done. simpl.
  eexists. split; [done|]. intros Hle.
  by replace (Z.to_nat max_iter) with 0 by lia.
Qed.

(** C8, as the code has it. When the loop runs out of iterations without
    the early [return], the call returns the score vector after
    [max_iter] updates and nothing else: the value of the call is the
    vector alone. *)
Theorem exhausted_returns_last_scores X alpha max_iter tol σ exit :
  (run X alpha max_iter tol σ).1 = Ok exit → early_return exit = false →
  (centrality_scores X alpha max_iter tol σ).1 = Ok (final_scores exit) ∧
  updates exit = Z.to_nat max_iter ∧
  final_scores exit = scores_after (σ !!! X) alpha (Z.to_nat max_iter).
Proof.
  intros Hrun Hret. rewrite centrality_scores_value, Hrun. split; [done|].
  destruct (decide (dim (σ !!! X) = 0)) as [Hn|Hn].
  { unfold run, copy in Hrun. rewrite lookup_total_insert_eq in Hrun.
    simpl in Hrun. by rewrite Hn in Hrun. }
  rewrite run_value in Hrun by done. simpl in Hrun. injection Hrun as <-.
  apply power_loop_exhausted in Hret as [-> ->]. split; [lia|done].
Qed.

End centrality_facts.

Lemma caller_matrix_unchanged_witness :
  edge01_store !! 0 = Some edge01 ∧
  (Centrality.centrality_scores 0 (Q2Qc (17 # 20)) 100 (Q2Qc (1 # 100)) edge01_store).2 !! 0
  = Some edge01.
Proof.
  split; [reflexivity|].
  exact (proj1 (caller_matrix_unchanged 0 (Q2Qc (17 # 20)) 100%Z (Q2Qc (1 # 100))
                  edge01_store edge01 eq_refl)).
Defined.

Lemma invalid_parameters_accepted :
  values (Centrality.centrality_scores 0 (Q2Qc (3 # 2)) 1 (Q2Qc (1 # 10)) edge01_store).1
    = Ok [1 # 8; 7 # 8]%Q ∧
  values (Centrality.centrality_scores 0 (Q2Qc (17 # 20)) 0 (Q2Qc (1 # 10)) edge01_store).1
    = Ok [1 # 2; 1 # 2]%Q ∧
  values (Centrality.centrality_scores 0 (Q2Qc (17 # 20)) (-3) (Q2Qc (1 # 10)) edge01_store).1
    = Ok [1 # 2; 1 # 2]%Q ∧
  values (Centrality.centrality_scores 0 (Q2Qc (17 # 20)) 1 (Q2Qc (-1 # 10)) edge01_store).1
    = Ok [23 # 80; 57 # 80]%Q.
Proof. vm_compute. repeat split. Qed.

Lemma no_parameter_validation_witness :
  dim (edge01_store !!! 0) ≠ 0 ∧
  ∃ scores,
    (Centrality.centrality_scores 0 (Q2Qc (2 # 1)) 0 (Q2Qc 0) edge01_store).1
      = Ok scores ∧
    ((0 ≤ 0)%Z →
     scores = replicate (dim (edge01_store !!! 0))
                (one ⊘ of_nat (dim (edge01_store !!! 0)))).
Proof.
  assert (dim (edge01_store !!! 0) ≠ 0) as Hn by (vm_compute; discriminate).
  split; [exact Hn|].
  exact (no_parameter_validation 0 (Q2Qc (2 # 1)) 0%Z (Q2Qc 0) edge01_store Hn).
Defined.

Lemma exhausted_returns_last_scores_witness :
  (Centrality.run 0 (Q2Qc (17 # 20)) 1 (Q2Qc (1 # 10000000000)) edge01_store).1
    = Ok edge01_exit ∧
  Centrality.early_return edge01_exit = false ∧
  (Centrality.centrality_scores 0 (Q2Qc (17 # 20)) 1 (Q2Qc (1 # 10000000000))
     edge01_store).1 = Ok (Centrality.final_scores edge01_exit) ∧
  Centrality.updates edge01_exit = Z.to_nat 1 ∧
  Centrality.final_scores edge01_exit
    = Centrality.scores_after (edge01_store !!! 0) (Q2Qc (17 # 20)) (Z.to_nat 1).
Proof.
  assert ((Centrality.run 0 (Q2Qc (17 # 20)) 1 (Q2Qc (1 # 10000000000))
             edge01_store).1 = Ok edge01_exit) as Hrun by (vm_compute; reflexivity).
  assert (Centrality.early_return edge01_exit = false) as Hret
    by (vm_compute; reflexivity).
  split; [exact Hrun|]. split; [exact Hret|].
  exact (exhausted_returns_last_scores 0 (Q2Qc (17 # 20)) 1%Z
           (Q2Qc (1 # 10000000000)) edge01_store edge01_exit Hrun Hret).
Defined.

Lemma nonconvergence_not_exposed :
  values (Centrality.centrality_scores 0 (Q2Qc (17 # 20)) 1 (Q2Qc (1 # 10000000000))
            edge01_store).1 = Ok [23 # 80; 57 # 80]%Q ∧
  Centrality.updates edge01_exit = 1 ∧
  this <$> Centrality.last_err edge01_exit = Some (17 # 57)%Q ∧
  Centrality.early_return
    <$> (Centrality.run 0 (Q2Qc (17 # 20)) 1 (Q2Qc (1 # 1)) edge01_store).1
    = Ok true ∧
  Centrality.early_return
    <$> (Centrality.run 0 (Q2Qc (17 # 20)) 1 (Q2Qc (1 # 10000000000)) edge01_store).1
    = Ok false ∧
  (Centrality.centrality_scores 0 (Q2Qc (17 # 20)) 1 (Q2Qc (1 # 1)) edge01_store).1
  = (Centrality.centrality_scores 0 (Q2Qc (17 # 20)) 1 (Q2Qc (1 # 10000000000))
       edge01_store).1.
Proof. vm_compute. repeat split. Qed.

(** ** The power iteration in exact arithmetic *)

(** Unfold the operations of [Qc_arith]. *)
Ltac exact_arith :=
  change (@add Qc Qc_arith) with Qcplus in *;
  change (@sub Qc Qc_arith) with Qcminus in *;
  change (@mul Qc Qc_arith) with Qcmult in *;
  change (@div Qc Qc_arith) with Qcdiv in *;
  change (@zero Qc Qc_arith) with (Q2Qc 0) in *;
  change (@one Qc Qc_arith) with (Q2Qc 1) in *;
  change (@eqf Qc Qc_arith) with (λ x y : Qc, bool_decide (x = y)) in *;
  cbv beta in *.

Section exact.
Import Centrality.
Local Open Scope Qc_scope.
Implicit Types (v u s : list Qc) (c x y : Qc).

Lemma vsum_nil : vsum ([] : list Qc) = 0.
Proof. done. Qed.

Lemma vsum_cons x v : vsum (x :: v) = x + vsum v.
Proof. done. Qed.

Lemma vsum_fmap_add {A} (f g : A → Qc) (l : list A) :
  vsum ((λ i, f i + g i) <$> l) = vsum (f <$> l) + vsum (g <$> l).
Proof.
  induction l as [|a l IH]; csimpl.
  - rewrite vsum_nil. ring.
  - rewrite !vsum_cons, IH. ring.
Qed.

Lemma vsum_fmap_scale {A} c (f : A → Qc) (l : list A) :
  vsum ((λ i, c * f i) <$> l) = c * vsum (f <$> l).
Proof.
  induction l as [|a l IH]; csimpl.
  - rewrite vsum_nil. ring.
  - rewrite !vsum_cons, IH. ring.
Qed.

Lemma vsum_fmap_ext {A} (f g : A → Qc) (l : list A) :
  (∀ a, a ∈ l → f a = g a) → vsum (f <$> l) = vsum (g <$> l).
Proof.
  intros Hfg. f_equal. apply list_fmap_ext. intros i a Ha. apply Hfg.
  by eapply list_elem_of_lookup_2.
Qed.

Lemma of_nat_Qc n : (of_nat n : Qc) = Qc_of_Z (Z.of_nat n).
Proof. done. Qed.

Lemma of_nat_0 : (of_nat 0 : Qc) = 0.
Proof. exact Z2Qc_inj_0. Qed.

Lemma of_nat_S n : (of_nat (S n) : Qc) = of_nat n + 1.
Proof. by rewrite !of_nat_Qc, Nat2Z.inj_succ, <-Z.add_1_r, Z2Qc_inj_add, Z2Qc_inj_1. Qed.

Lemma of_nat_pos n : n ≠ 0%nat → 0 < (of_nat n : Qc).
Proof. intros Hn. rewrite of_nat_Qc, <-Z2Qc_inj_0, <-Z2Qc_inj_lt. lia. Qed.

Lemma vsum_fmap_const {A} c (l : list A) :
  vsum ((λ _, c) <$> l) = of_nat (length l) * c.
Proof.
  induction l as [|a l IH]; csimpl.
  - rewrite vsum_nil, of_nat_0. ring.
  - rewrite vsum_cons, IH, of_nat_S. ring.
Qed.

Lemma vsum_exchange {A B} (f : A → B → Qc) (la : list A) (lb : list B) :
  vsum ((λ b, vsum ((λ a, f a b) <$> la)) <$> lb)
  = vsum ((λ a, vsum ((λ b, f a b) <$> lb)) <$> la).
Proof.
  induction la as [|a la IH]; csimpl.
  - rewrite vsum_nil. trans (vsum ((λ _ : B, 0) <$> lb)).
    + by apply vsum_fmap_ext.
    + rewrite vsum_fmap_const. ring.
  - rewrite vsum_cons, <-IH.
    rewrite <-vsum_fmap_add. apply vsum_fmap_ext. intros b _.
    by rewrite vsum_cons.
Qed.

Lemma vsum_nonneg v : (∀ x, x ∈ v → 0 ≤ x) → 0 ≤ vsum v.
Proof.
  induction v as [|x v IH]; intros Hv.
  - by rewrite vsum_nil.
  - rewrite vsum_cons. apply Qcplus_nonneg_nonneg.
    + apply Hv. left.
    + apply IH. intros y Hy. apply Hv. by right.
Qed.


(** Sums over an array as sums over its indices. *)
Lemma list_as_indices v : v = (λ i, v !!! i) <$> seq 0 (length v).
Proof.
  apply list_eq. intros i. rewrite list_lookup_fmap.
  destruct (decide (i < length v)%nat) as [Hi|Hi].
  - rewrite lookup_seq_lt by done. simpl.
    destruct (lookup_lt_is_Some_2 v i Hi) as [x Hx].
    by rewrite (list_lookup_total_correct _ _ _ Hx).
  - rewrite lookup_seq_ge, lookup_ge_None_2 by lia. done.
Qed.

Lemma imap_as_indices (g : nat → Qc → Qc) v :
  imap g v = (λ i, g i (v !!! i)) <$> seq 0 (length v).
Proof.
  apply list_eq. intros i. rewrite list_lookup_imap, list_lookup_fmap.
  destruct (decide (i < length v)%nat) as [Hi|Hi].
  - rewrite lookup_seq_lt by done. simpl.
    destruct (lookup_lt_is_Some_2 v i Hi) as [x Hx].
    by rewrite (list_lookup_total_correct _ _ _ Hx), Hx.
  - rewrite lookup_seq_ge, lookup_ge_None_2 by lia. done.
Qed.

Lemma zip_with_as_indices (g : Qc → Qc → Qc) u v :
  length u = length v →
  zip_with g u v = (λ i, g (u !!! i) (v !!! i)) <$> seq 0 (length v).
Proof.
  intros Hlen. apply list_eq. intros i. rewrite lookup_zip_with, list_lookup_fmap.
  destruct (decide (i < length v)%nat) as [Hi|Hi].
  - rewrite lookup_seq_lt by done. simpl.
    destruct (lookup_lt_is_Some_2 v i Hi) as [x Hx].
    destruct (lookup_lt_is_Some_2 u i ltac:(lia)) as [y Hy].
    by rewrite (list_lookup_total_correct _ _ _ Hx),
      (list_lookup_total_correct _ _ _ Hy), Hx, Hy.
  - rewrite lookup_seq_ge by lia. rewrite (lookup_ge_None_2 u) by lia. done.
Qed.

Lemma elem_of_seq_0 n i : i ∈ seq 0 n ↔ (i < n)%nat.
Proof. rewrite elem_of_seq. lia. Qed.

(** Rows of a matrix over the rationals. *)
Implicit Types (M : matrix Qc).

Lemma length_row_sums M : length (row_sums M) = dim M.
Proof. unfold row_sums. by rewrite length_fmap, length_seq. Qed.

Lemma lookup_row_sums M r : (r < dim M)%nat → row_sums M !! r = Some (row_sum M r).
Proof.
  intros Hr. unfold row_sums. rewrite list_lookup_fmap, lookup_seq_lt by done. done.
Qed.

Lemma lookup_total_row_sums M r : (r < dim M)%nat → row_sums M !!! r = row_sum M r.
Proof. intros Hr. apply list_lookup_total_correct. by apply lookup_row_sums. Qed.

Lemma cell_scale_row M i c r j :
  cell (scale_row M i c) r j = if decide (r = i) then cell M r j * c else cell M r j.
Proof.
  unfold cell, scale_row. simpl. rewrite map_lookup_imap.
  destruct (cells M !! (r, j)) as [x|]; simpl.
  - by case_decide.
  - case_decide; [|done]. exact_arith. ring.
Qed.

Lemma elem_of_nonzero_from k v i :
  i ∈ nonzero_from k v ↔ (k ≤ i)%nat ∧ ∃ c, v !! (i - k)%nat = Some c ∧ c ≠ 0.
Proof.
  revert k. induction v as [|x v IH]; intros k; simpl.
  - split; [by intros ?%elem_of_nil|]. by intros (_ & c & ? & _).
  - case_bool_decide as Hx.
    + rewrite IH. split.
      * intros (Hk & c & Hc & Hne). split; [lia|]. exists c. split; [|done].
        by replace (i - k)%nat with (S (i - S k)) by lia.
      * intros (Hk & c & Hc & Hne). destruct (decide (i = k)) as [->|Hik].
        { rewrite Nat.sub_diag in Hc. simpl in Hc. congruence. }
        split; [lia|]. exists c. split; [|done].
        by replace (i - k)%nat with (S (i - S k)) in Hc by lia.
    + rewrite elem_of_cons, IH. split.
      * intros [->|(Hk & c & Hc & Hne)].
        { split; [lia|]. exists x. by rewrite Nat.sub_diag. }
        split; [lia|]. exists c. split; [|done].
        by replace (i - k)%nat with (S (i - S k)) by lia.
      * intros (Hk & c & Hc & Hne). destruct (decide (i = k)) as [->|Hik]; [by left|].
        right. split; [lia|]. exists c. split; [|done].
        by replace (i - k)%nat with (S (i - S k)) in Hc by lia.
Qed.

Lemma NoDup_nonzero_from k v : NoDup (nonzero_from k v).
Proof.
  revert k. induction v as [|x v IH]; intros k; simpl; [constructor|].
  case_bool_decide; [done|]. constructor; [|done].
  rewrite elem_of_nonzero_from. lia.
Qed.

Lemma elem_of_nonzero v i : i ∈ nonzero v ↔ ∃ c, v !! i = Some c ∧ c ≠ 0.
Proof.
  unfold nonzero. rewrite elem_of_nonzero_from, Nat.sub_0_r.
  split; [by intros [_ ?]|]. intros ?. split; [lia|done].
Qed.

Lemma dim_scale_rows (f : nat → Qc) rows M :
  dim (foldl (λ X i, scale_row X i (f i)) M rows) = dim M.
Proof. revert M. induction rows as [|i rows IH]; intros M; simpl; [done|]. by rewrite IH. Qed.

Lemma cell_scale_rows (f : nat → Qc) rows M r j :
  NoDup rows →
  cell (foldl (λ X i, scale_row X i (f i)) M rows) r j
  = if decide (r ∈ rows) then cell M r j * f r else cell M r j.
Proof.
  revert M. induction rows as [|i rows IH]; intros M Hnd; cbn [foldl].
  - rewrite decide_False; [done|]. by intros ?%elem_of_nil.
  - apply NoDup_cons in Hnd as [Hi Hnd]. rewrite IH, cell_scale_row by done.
    destruct (decide (r = i)) as [->|Hri].
    + rewrite (decide_False (P := i ∈ rows)) by done.
      rewrite decide_True; [done|by left].
    + case_decide as Hr.
      * rewrite decide_True; [done|by right].
      * rewrite decide_False; [done|]. intros [?|?]%elem_of_cons; done.
Qed.

Lemma dim_normalize_rows counts M : dim (normalize_rows counts M) = dim M.
Proof. apply (dim_scale_rows (λ i, one ⊘ (counts !!! i))). Qed.

(** The cell of the matrix after the normalization loop. *)
Lemma cell_normalize M r j :
  (r < dim M)%nat →
  cell (normalize_rows (row_sums M) M) r j
  = if decide (row_sum M r = 0) then cell M r j else cell M r j * (1 / row_sum M r).
Proof.
  intros Hr. unfold normalize_rows.
  rewrite (cell_scale_rows (λ i, one ⊘ (row_sums M !!! i))) by apply NoDup_nonzero_from.
  rewrite lookup_total_row_sums by done.
  case_decide as Hin; rewrite elem_of_nonzero in Hin.
  - destruct Hin as (c & Hc & Hne). rewrite lookup_row_sums in Hc by done.
    injection Hc as <-. by rewrite decide_False.
  - case_decide as Hz; [done|]. destruct Hin. exists (row_sum M r).
    by rewrite lookup_row_sums.
Qed.

Lemma cell_normalize_out M r j :
  ¬ (r < dim M)%nat → cell (normalize_rows (row_sums M) M) r j = cell M r j.
Proof.
  intros Hr. unfold normalize_rows.
  rewrite (cell_scale_rows (λ i, one ⊘ (row_sums M !!! i))) by apply NoDup_nonzero_from.
  rewrite decide_False; [done|]. rewrite elem_of_nonzero. intros (c & Hc & _).
  apply lookup_lt_Some in Hc. rewrite length_row_sums in Hc. done.
Qed.

Lemma Qcdiv_0_r x : x / 0 = 0.
Proof.
  unfold Qcdiv. assert (/ 0 = 0) as -> by (by apply Qc_is_canon). ring.
Qed.

(** The row sums after the normalization loop: 1 for a row whose sum was
    not zero, 0 for the others. *)
Lemma row_sum_normalize M r :
  (r < dim M)%nat →
  row_sum (normalize_rows (row_sums M) M) r = if decide (row_sum M r = 0) then 0 else 1.
Proof.
  intros Hr. unfold row_sum at 1. rewrite dim_normalize_rows.
  rewrite (vsum_fmap_ext _ (λ j, (1 / row_sum M r) * cell M r j
                                  + (if decide (row_sum M r = 0) then cell M r j else 0))).
  2:{ intros j _. rewrite cell_normalize by done. case_decide as Hz; [|ring].
      rewrite Hz, Qcdiv_0_r. ring. }
  rewrite vsum_fmap_add, vsum_fmap_scale. fold (row_sum M r).
  case_decide as Hz.
  - change (vsum ((λ i, cell M r i) <$> seq 0 (dim M))) with (row_sum M r).
    rewrite Hz. ring.
  - rewrite (vsum_fmap_const 0). field. done.
Qed.

Lemma length_dangle_vector M n : length (dangle_vector M n) = dim M.
Proof. unfold dangle_vector. by rewrite length_fmap, length_row_sums. Qed.

Lemma lookup_total_dangle_vector M n r :
  (r < dim M)%nat →
  dangle_vector M n !!! r = if decide (row_sum M r = 0) then 1 / of_nat n else 0.
Proof.
  intros Hr. unfold dangle_vector. apply list_lookup_total_correct.
  rewrite list_lookup_fmap, lookup_row_sums by done. simpl. f_equal.
  exact_arith. by case_bool_decide; case_decide.
Qed.

Lemma row_sum_nonneg M r : (∀ i j, 0 ≤ cell M i j) → 0 ≤ row_sum M r.
Proof.
  intros Hpos. apply vsum_nonneg. intros x (j & -> & _)%list_elem_of_fmap. apply Hpos.
Qed.

Lemma Qcdiv_nonneg x y : 0 ≤ x → 0 ≤ y → 0 ≤ x / y.
Proof.
  intros Hx Hy. destruct (decide (y = 0)) as [->|Hne]; [by rewrite Qcdiv_0_r|].
  unfold Qcdiv. apply Qcmult_nonneg_nonneg; [done|].
  apply Qclt_le_weak, Qcinv_pos. by apply Qcle_lt_or_eq in Hy as [|<-].
Qed.

Lemma of_nat_nonneg n : 0 ≤ (of_nat n : Qc).
Proof. rewrite of_nat_Qc, <-Z2Qc_inj_0, <-Z2Qc_inj_le. lia. Qed.

Lemma cell_normalize_nonneg M r j :
  (∀ i j, 0 ≤ cell M i j) → 0 ≤ cell (normalize_rows (row_sums M) M) r j.
Proof.
  intros Hpos. destruct (decide (r < dim M)%nat) as [Hr|Hr].
  - rewrite cell_normalize by done. case_decide; [done|].
    apply Qcmult_nonneg_nonneg; [done|]. apply Qcdiv_nonneg; [done|].
    by apply row_sum_nonneg.
  - by rewrite cell_normalize_out.
Qed.

Lemma length_power_update M dangle alpha n s :
  length (power_update M dangle alpha n s) = dim M.
Proof. unfold power_update, vecmat. by rewrite !length_fmap, length_seq. Qed.

(** The entries of an update, by index. *)
Lemma power_update_as_indices M dangle alpha n s :
  length s = dim M → length dangle = dim M →
  power_update M dangle alpha n s
  = (λ j, alpha * (vsum ((λ i, s !!! i * cell M i j) <$> seq 0 (dim M))
                   + vsum ((λ i, dangle !!! i * s !!! i) <$> seq 0 (dim M)))
          + (1 - alpha) * vsum s / of_nat n) <$> seq 0 (dim M).
Proof.
  intros Hs Hd. unfold power_update, vecmat, dot. rewrite <-list_fmap_compose.
  apply list_fmap_ext. intros _ j _. simpl.
  rewrite imap_as_indices, zip_with_as_indices, Hs by congruence. done.
Qed.

Lemma power_update_nonneg M dangle alpha n s :
  length s = dim M → length dangle = dim M →
  (∀ i j, 0 ≤ cell M i j) → (∀ x, x ∈ dangle → 0 ≤ x) → 0 ≤ alpha ≤ 1 →
  (∀ x, x ∈ s → 0 ≤ x) →
  ∀ x, x ∈ power_update M dangle alpha n s → 0 ≤ x.
Proof.
  intros Hs Hd HM Hdangle [Ha0 Ha1] Hpos x.
  assert (∀ i, 0 ≤ s !!! i) as Hsi.
  { intros i. destruct (s !! i) as [y|] eqn:Hy.
    - rewrite (list_lookup_total_correct _ _ _ Hy). apply Hpos.
      by eapply list_elem_of_lookup_2.
    - by rewrite list_lookup_total_alt, Hy. }
  assert (∀ i, 0 ≤ dangle !!! i) as Hdi.
  { intros i. destruct (dangle !! i) as [y|] eqn:Hy.
    - rewrite (list_lookup_total_correct _ _ _ Hy). apply Hdangle.
      by eapply list_elem_of_lookup_2.
    - by rewrite list_lookup_total_alt, Hy. }
  rewrite power_update_as_indices by done.
  intros (j & -> & _)%list_elem_of_fmap.
  apply Qcplus_nonneg_nonneg.
  - apply Qcmult_nonneg_nonneg; [done|]. apply Qcplus_nonneg_nonneg.
    + apply vsum_nonneg. intros y (i & -> & _)%list_elem_of_fmap.
      by apply Qcmult_nonneg_nonneg.
    + apply vsum_nonneg. intros y (i & -> & _)%list_elem_of_fmap.
      by apply Qcmult_nonneg_nonneg.
  - apply Qcdiv_nonneg; [|apply of_nat_nonneg].
    apply Qcmult_nonneg_nonneg; [|by apply vsum_nonneg].
    apply (Qcplus_le_mono_r _ _ alpha). by ring_simplify.
Qed.

(** An update on the normalized matrix keeps the sum of the scores. *)
Lemma power_update_sum M alpha s :
  dim M ≠ 0%nat → length s = dim M →
  let X := normalize_rows (row_sums M) M in
  vsum (power_update X (dangle_vector X (dim M)) alpha (dim M) s) = vsum s.
Proof.
  intros Hn Hs X.
  assert (dim X = dim M) as HX by apply dim_normalize_rows.
  rewrite power_update_as_indices
    by (by rewrite ?length_dangle_vector, ?HX).
  rewrite HX. set (n := dim M) in *. set (d := dangle_vector X n).
  set (D := vsum ((λ i, d !!! i * s !!! i) <$> seq 0 n)).
  set (T := (1 - alpha) * vsum s / of_nat n).
  rewrite (vsum_fmap_ext _ (λ j, alpha * vsum ((λ i, s !!! i * cell X i j) <$> seq 0 n)
                                  + (alpha * D + T))) by (intros; ring).
  rewrite vsum_fmap_add, vsum_fmap_scale, vsum_fmap_const, length_seq.
  rewrite (vsum_exchange (λ i j, s !!! i * cell X i j)).
  rewrite (vsum_fmap_ext _ (λ i, s !!! i * row_sum X i)).
  2:{ intros i _. rewrite vsum_fmap_scale. unfold row_sum. by rewrite HX. }
  assert (of_nat n ≠ (0 : Qc)) as Hn0.
  { intros Heq. pose proof (of_nat_pos n Hn) as Hlt. rewrite Heq in Hlt.
    by apply Qclt_not_eq in Hlt. }
  assert (of_nat n * (alpha * D + T)
          = alpha * vsum ((λ i, s !!! i * (of_nat n * d !!! i)) <$> seq 0 n)
            + (1 - alpha) * vsum s) as ->.
  { unfold T, D.
    rewrite (vsum_fmap_ext (λ i, s !!! i * (of_nat n * d !!! i))
                           (λ i, of_nat n * (d !!! i * s !!! i))) by (intros; ring).
    rewrite vsum_fmap_scale. field. done. }
  assert (vsum ((λ i, s !!! i * row_sum X i) <$> seq 0 n)
          + vsum ((λ i, s !!! i * (of_nat n * d !!! i)) <$> seq 0 n)
          = vsum s) as Hkey.
  { rewrite <-vsum_fmap_add.
    rewrite (vsum_fmap_ext _ (λ i, s !!! i)).
    - by rewrite <-Hs, <-list_as_indices.
    - intros i Hi%elem_of_seq_0. unfold d.
      rewrite lookup_total_dangle_vector by (by rewrite HX).
      unfold X. rewrite row_sum_normalize by done.
      case_decide; rewrite ?decide_True, ?decide_False by done; field; done. }
  rewrite <-Hkey. ring.
Qed.

Lemma vsum_replicate n c : vsum (replicate n c) = of_nat n * c.
Proof.
  induction n as [|n IH]; simpl.
  - rewrite vsum_nil, of_nat_0. ring.
  - rewrite vsum_cons, IH, of_nat_S. ring.
Qed.

Lemma scores_after_S M alpha k :
  scores_after M alpha (S k)
  = let X := normalize_rows (row_sums M) M in
    power_update X (dangle_vector X (dim M)) alpha (dim M) (scores_after M alpha k).
Proof. done. Qed.

Lemma scores_after_distribution M alpha k :
  (∀ i j, 0 ≤ cell M i j) → 0 < alpha < 1 → dim M ≠ 0%nat →
  length (scores_after M alpha k) = dim M ∧
  (∀ x, x ∈ scores_after M alpha k → 0 ≤ x) ∧
  vsum (scores_after M alpha k) = 1.
Proof.
  intros HM [Ha0 Ha1] Hn. induction k as [|k (Hlen & Hpos & Hsum)].
  - unfold scores_after. simpl. split; [by rewrite length_replicate|]. split.
    + intros x [-> _]%elem_of_replicate. exact_arith.
      apply Qcdiv_nonneg; [done|apply of_nat_nonneg].
    + rewrite vsum_replicate. exact_arith. field.
      intros Heq. pose proof (of_nat_pos (dim M) Hn) as Hlt. rewrite Heq in Hlt.
      by apply Qclt_not_eq in Hlt.
  - rewrite scores_after_S. cbv zeta.
    assert (dim (normalize_rows (row_sums M) M) = dim M) as HX
      by apply dim_normalize_rows.
    split; [by rewrite length_power_update|]. split.
    + apply power_update_nonneg.
      * by rewrite HX.
      * by rewrite length_dangle_vector.
      * intros i j. by apply cell_normalize_nonneg.
      * intros x (c & -> & _)%list_elem_of_fmap. exact_arith.
        case_bool_decide; [|done]. apply Qcdiv_nonneg; [done|apply of_nat_nonneg].
      * split; by apply Qclt_le_weak.
      * done.
    + by rewrite (power_update_sum M alpha _ Hn Hlen).
Qed.

End exact.

Section exact_claims.
Import Centrality.
Local Open Scope Qc_scope.
Implicit Types (M : matrix Qc) (σ : store Qc).



End exact_claims.

Lemma edge01_nonneg i j : (0 ≤ cell (edge01_store !!! 0%nat) i j)%Qc.
Proof.
  change (edge01_store !!! 0%nat) with edge01. unfold cell, edge01. simpl.
  rewrite lookup_insert. case_decide; simpl; [done|]. by rewrite lookup_empty.
Qed.

Lemma alpha_in_range : (0 < Q2Qc (17 # 20) < 1)%Qc.
Proof. split; reflexivity. Qed.



Example normalized_edge01 :
  (λ v : list Qc, this <$> v)
    (row_sums (Centrality.normalize_rows (row_sums edge01) edge01)) = [1; 0]%Q ∧
  (λ v : list Qc, this <$> v)
    (Centrality.dangle_vector (Centrality.normalize_rows (row_sums edge01) edge01) 2)
  = [0; 1 # 2]%Q.
Proof. vm_compute. split; reflexivity. Qed.

(** ** N-Triples lines: slicing and splitting *)

Section nt_facts.
Implicit Types (s t pre name : string) (c : Ascii.ascii).

Lemma string_app_cons a s t : String a s +:+ t = String a (s +:+ t).
Proof. done. Qed.

Lemma string_length_app s t : String.length (s +:+ t) = String.length s + String.length t.
Proof.
  induction s as [|a s IH]; [done|]. rewrite string_app_cons. simpl. by rewrite IH.
Qed.

Lemma string_app_nil_r s : s +:+ "" = s.
Proof. induction s as [|a s IH]; [done|]. by rewrite string_app_cons, IH. Qed.

Lemma string_app_assoc s t u : (s +:+ t) +:+ u = s +:+ (t +:+ u).
Proof. induction s as [|a s IH]; [done|]. by rewrite !string_app_cons, IH. Qed.

Lemma substring_length n m s :
  String.length (String.substring n m s) = m `min` (String.length s - n).
Proof.
  revert n m. induction s as [|a s IH]; intros [|n] [|m]; simpl;
    rewrite ?IH, ?Nat.sub_0_r; try lia.
  by destruct (String.length s - n).
Qed.

Lemma substring_skip pre n s :
  String.substring (String.length pre) n (pre +:+ s) = String.substring 0 n s.
Proof. induction pre as [|a pre IH]; [done|]. rewrite string_app_cons. apply IH. Qed.

Lemma substring_prefix s t : String.substring 0 (String.length s) (s +:+ t) = s.
Proof.
  induction s as [|a s IH]; [by destruct t|]. rewrite string_app_cons. simpl.
  by rewrite IH.
Qed.

(** X1. [short_name] returns what stands between the first 29 bytes and
    the last byte, whatever those are: for a URI of the resource namespace
    between [<] and [>] that is the article name, and the prefix is not
    compared with the namespace. *)
Theorem short_name_strips pre name c :
  String.length pre = 29 →
  NT.short_name (pre +:+ name +:+ String c "") = name.
Proof.
  intros Hpre. unfold NT.short_name.
  change (NT.DBPEDIA_RESOURCE_PREFIX_LEN + 1) with 29.
  rewrite !string_length_app, Hpre. simpl String.length.
  replace (29 + (String.length name + 1) - 1 - 29) with (String.length name) by lia.
  rewrite <-Hpre at 1. by rewrite substring_skip, substring_prefix.
Qed.

(** X2. [short_name] drops 30 bytes: the result has 30 bytes less than the
    argument, and it is empty for an argument of at most 30 bytes (a
    predicate, the final dot, a URI of another shape). *)
Theorem short_name_length s :
  String.length (NT.short_name s) = String.length s - 30.
Proof.
  unfold NT.short_name. change (NT.DBPEDIA_RESOURCE_PREFIX_LEN + 1) with 29.
  rewrite substring_length. lia.
Qed.

Lemma words_go_space cur s sp t :
  Ascii.is_space sp = true →
  String.words_go cur (s +:+ String sp t)
  = String.words_go cur s ++ String.words_go None t.
Proof.
  intros Hsp. revert cur. induction s as [|a s IH]; intros cur.
  - simpl. by rewrite Hsp.
  - rewrite string_app_cons. simpl.
    destruct (Ascii.is_space a); [|apply IH]. by rewrite IH, (assoc_L (++)).
Qed.

Lemma rev_app_rev_app s t u :
  String.rev_app (String.rev_app s t) u = String.rev_app t (s +:+ u).
Proof.
  revert t u. induction s as [|a s IH]; intros t u; [done|].
  rewrite string_app_cons. simpl. by rewrite IH.
Qed.

Lemma words_go_token acc s :
  no_space s = true →
  String.words_go (Some acc) s = [String.rev (String.rev_app s acc)].
Proof.
  revert acc. induction s as [|a s IH]; intros acc Hs; simpl in *; [done|].
  apply andb_prop in Hs as [Ha Hs]. apply negb_true_iff in Ha. rewrite Ha. simpl.
  by apply IH.
Qed.

Lemma words_token s : token s → String.words s = [s].
Proof.
  intros [Hne Hs]. destruct s as [|a s]; [done|]. unfold String.words. simpl in *.
  apply andb_prop in Hs as [Ha Hs]. apply negb_true_iff in Ha. rewrite Ha. simpl.
  rewrite words_go_token by done. unfold String.rev.
  by rewrite rev_app_rev_app, string_app_nil_r.
Qed.

Lemma words_go_blank cur eol :
  blank eol = true → String.words_go cur eol = option_list (String.rev <$> cur).
Proof.
  revert cur. induction eol as [|a eol IH]; intros cur Hb; simpl in *; [done|].
  apply andb_prop in Hb as [-> Hb]. rewrite IH by done. simpl. apply (right_id_L [] (++)).
Qed.

Lemma words_token_space s sp t :
  token s → Ascii.is_space sp = true →
  String.words (s +:+ String sp t) = s :: String.words t.
Proof.
  intros Hs Hsp. unfold String.words at 1. rewrite words_go_space by done.
  fold (String.words s). by rewrite words_token.
Qed.

Lemma words_token_blank s eol :
  token s → blank eol = true → String.words (s +:+ eol) = [s].
Proof.
  intros Hs Hb. destruct eol as [|sp eol].
  - rewrite string_app_nil_r. by apply words_token.
  - simpl in Hb. apply andb_prop in Hb as [Hsp Hb].
    rewrite words_token_space by done. unfold String.words.
    by rewrite words_go_blank.
Qed.

Lemma short_name_uri name : NT.short_name (uri name) = name.
Proof.
  unfold NT.short_name, uri.
  change (NT.DBPEDIA_RESOURCE_PREFIX_LEN + 1) with 29.
  rewrite !string_length_app. simpl String.length.
  replace (29 + (String.length name + 1) - 1 - 29) with (String.length name) by lia.
  change 29 with (String.length "<http://dbpedia.org/resource/") at 1.
  by rewrite substring_skip, substring_prefix.
Qed.

Lemma token_uri name : no_space name = true → token (uri name).
Proof.
  intros Hname. split; [done|]. unfold uri.
  assert (∀ s t, no_space s = true → no_space t = true → no_space (s +:+ t) = true)
    as Happ.
  { intros s t Hs Ht. induction s as [|a s IH]; [done|].
    rewrite string_app_cons. simpl in *.
    apply andb_prop in Hs as [-> Hs]. simpl. by apply IH. }
  apply Happ; [done|]. by apply Happ.
Qed.

(** X3. A line of four tokens separated by single spaces, with or without
    an end of line after the final dot, is a statement, and it parses to
    the short names of its first and third token: a statement between two
    resource URIs parses to the two article names, whatever the predicate. *)
Theorem parse_statement s p o a b eol :
  token s → token p → token o →
  no_space a = true → no_space b = true → blank eol = true →
  NT.parse_line (statement s p o +:+ eol) = Some (NT.short_name s, NT.short_name o) ∧
  NT.parse_line (statement (uri a) p (uri b) +:+ eol) = Some (a, b).
Proof.
  intros Hs Hp Ho Ha Hb Heol.
  assert (∀ s' o', token s' → token o' →
            NT.parse_line (statement s' p o' +:+ eol)
            = Some (NT.short_name s', NT.short_name o'))
    as Hparse.
  { intros s' o' Hs' Ho'. unfold NT.parse_line, NT.split, statement.
    assert (∀ x, " " +:+ x = String Ascii.Space x) as Hsp by done.
    assert (" ." +:+ eol = String Ascii.Space ("." +:+ eol)) as Hdot by done.
    rewrite ?string_app_assoc, Hdot, !Hsp, !words_token_space by done.
    by rewrite words_token_blank. }
  split; [by apply Hparse|].
  rewrite Hparse by (by apply token_uri). by rewrite !short_name_uri.
Qed.

End nt_facts.

Lemma short_name_strips_witness :
  String.length "<http://dbpedia.org/resource/" = 29 ∧
  NT.short_name ("<http://dbpedia.org/resource/" +:+ "Paris" +:+ ">") = "Paris".
Proof.
  split; [reflexivity|].
  exact (short_name_strips "<http://dbpedia.org/resource/" "Paris" _ eq_refl).
Defined.

Lemma token_wikilink : token "<http://dbpedia.org/property/wikilink>".
Proof. split; [discriminate|reflexivity]. Qed.

Lemma token_uri_paris : token (uri "Paris").
Proof. split; [discriminate|reflexivity]. Qed.

Lemma token_uri_france : token (uri "France").
Proof. split; [discriminate|reflexivity]. Qed.

Lemma parse_statement_witness :
  token (uri "Paris") ∧ token "<http://dbpedia.org/property/wikilink>" ∧
  token (uri "France") ∧ blank newline = true ∧
  NT.parse_line (statement (uri "Paris") "<http://dbpedia.org/property/wikilink>"
                   (uri "France") +:+ newline) = Some ("Paris", "France").
Proof.
  split; [exact token_uri_paris|]. split; [exact token_wikilink|].
  split; [exact token_uri_france|]. split; [reflexivity|].
  exact (proj2 (parse_statement (uri "Paris") "<http://dbpedia.org/property/wikilink>"
                  (uri "France") "Paris" "France" newline token_uri_paris
                  token_wikilink token_uri_france eq_refl eq_refl eq_refl)).
Defined.

(** ** The redirect file and its closure, further *)

Section redirect_more.
Import Redirects.
Implicit Types (m : gmap string string) (seen : gset string).

(** The first loop of [get_redirects], started from a dict [m]. *)
Lemma parse_app l1 l2 :
  parse (l1 ++ l2)
  = foldl (λ redirects line,
             match NT.parse_line line with
             | Some (s, o) => <[s := o]> redirects
             | None => redirects
             end) (parse l1) l2.
Proof. unfold parse. by rewrite foldl_app. Qed.

Lemma parse_fold_other m lines s :
  (∀ line o, line ∈ lines → NT.parse_line line ≠ Some (s, o)) →
  foldl (λ redirects line,
           match NT.parse_line line with
           | Some (s, o) => <[s := o]> redirects
           | None => redirects
           end) m lines !! s = m !! s.
Proof.
  revert m. induction lines as [|line lines IH]; intros m Hs; simpl; [done|].
  rewrite IH by (intros line' o' Hin; apply Hs; by right).
  destruct (NT.parse_line line) as [[s' o']|] eqn:Hline; [|done].
  rewrite lookup_insert_ne; [done|]. intros ->. by eapply Hs; [left|].
Qed.

Lemma parse_fold_subject m lines s :
  is_Some (foldl (λ redirects line,
                    match NT.parse_line line with
                    | Some (s, o) => <[s := o]> redirects
                    | None => redirects
                    end) m lines !! s)
  ↔ is_Some (m !! s) ∨ ∃ line o, line ∈ lines ∧ NT.parse_line line = Some (s, o).
Proof.
  revert m. induction lines as [|line lines IH]; intros m; simpl.
  - split; [by left|]. intros [?|(line & o & Hin & _)]; [done|].
    by apply elem_of_nil in Hin.
  - rewrite IH. split.
    + intros [Hm|(line' & o & Hin & Hp)].
      * destruct (NT.parse_line line) as [[s' o']|] eqn:Hline; [|by left].
        destruct (decide (s' = s)) as [->|Hne].
        { right. exists line, o'. split; [left|done]. }
        rewrite lookup_insert_ne in Hm by done. by left.
      * right. exists line', o. split; [by right|done].
    + intros [Hm|(line' & o & Hin & Hp)].
      * left. destruct (NT.parse_line line) as [[s' o']|]; [|done].
        destruct (decide (s' = s)) as [->|Hne].
        { rewrite lookup_insert_eq. eauto. }
        by rewrite lookup_insert_ne.
      * apply elem_of_cons in Hin as [->|Hin].
        { left. rewrite Hp, lookup_insert_eq. eauto. }
        right. eauto.
Qed.

(** X4. When a name is the subject of several statements of the redirect
    file, the last one decides its entry: a statement gives the entry of
    its subject unless a later statement has the same subject. Malformed
    lines in between change nothing. *)
Theorem parse_last_statement_wins l1 line l2 s o :
  NT.parse_line line = Some (s, o) →
  (∀ line' o', line' ∈ l2 → NT.parse_line line' ≠ Some (s, o')) →
  parse (l1 ++ line :: l2) !! s = Some o.
Proof.
  intros Hline Hlater. rewrite parse_app. simpl.
  rewrite parse_fold_other by done. by rewrite Hline, lookup_insert_eq.
Qed.

Lemma walk_self fuel m target seen source t :
  walk fuel m target seen = Ok t → source ∈ seen → t = source → target = source.
Proof.
  intros (path & _ & Hlast & _ & Hnew & _)%walk_stops_at Hsrc ->.
  destruct path as [|x path _] using rev_ind; [by injection Hlast|].
  rewrite app_comm_cons, last_snoc in Hlast. injection Hlast as ->.
  destruct (Hnew source); [|done]. apply elem_of_app. right. left.
Qed.

Lemma close_keys_self fuel ks m :
  NoDup ks → (∀ k, k ∈ ks → is_Some (m !! k)) → size m < fuel →
  ∃ m', close_keys fuel ks m = Ok m' ∧ dom m' = dom m ∧
        (∀ k, k ∉ ks → m' !! k = m !! k) ∧
        (∀ k, k ∈ ks → m' !! k = Some k ↔ m !! k = Some k).
Proof.
  revert m. induction ks as [|source ks IH]; intros m Hnd Hks Hfuel.
  - exists m. simpl. split; [done|]. split; [done|]. split; [done|].
    intros k Hk. by apply elem_of_nil in Hk.
  - apply NoDup_cons in Hnd as [Hsrc Hnd].
    destruct (Hks source) as [target Htarget]; [left|].
    destruct (walk_terminates fuel m target {[source]}) as [t Hw].
    { pose proof (size_map_img_le m).
      pose proof (subseteq_size (map_img m ∖ {[source]}) (map_img m : gset string))
        as Hs.
      assert (size (map_img m ∖ {[source]} : gset string)
              ≤ size (map_img m : gset string)); [|lia].
      apply Hs, subseteq_difference_l. done. }
    assert (dom (<[source := t]> m) = dom m) as Hdom1.
    { rewrite dom_insert_L. apply elem_of_dom_2 in Htarget. set_solver. }
    destruct (IH (<[source := t]> m)) as (m' & Hrun & Hdom & Hout & Hin); [done|..].
    { intros k Hk. rewrite <-elem_of_dom, Hdom1, elem_of_dom. apply Hks. by right. }
    { by rewrite <-size_dom, Hdom1, size_dom. }
    exists m'. simpl. unfold close_key. rewrite Htarget, Hw. simpl.
    split; [done|]. split; [by rewrite Hdom|]. split.
    + intros k Hk. rewrite Hout by set_solver. apply lookup_insert_ne. set_solver.
    + intros k [->|Hk]%elem_of_cons.
      * rewrite Hout, lookup_insert_eq, Htarget by done. split.
        { intros [= ->]. f_equal. eapply walk_self; [done| |done]. set_solver. }
        intros [= ->]. f_equal. destruct fuel as [|fuel]; [done|].
        simpl in Hw. rewrite Htarget in Hw.
        rewrite decide_True in Hw by set_solver. by injection Hw.
      * rewrite Hin by done. rewrite lookup_insert_ne; [done|]. by intros ->.
Qed.

(** X5. The closure pass keeps a name that redirects to itself as it is
    and makes no other name redirect to itself, whatever cycles the dict
    has: after the pass a key maps to itself exactly when it did before. *)
Theorem closure_self_redirects m ks :
  keys_of m ks →
  ∃ m', transitive_closure ks m = Ok m' ∧
        ∀ k, m' !! k = Some k ↔ m !! k = Some k.
Proof.
  intros Hks. pose proof Hks as [Hnd Hdomks].
  destruct (close_keys_self (S (size m)) ks m) as (m' & Hrun & Hdom & Hout & Hin);
    [done|intros k; by apply keys_of_elem|lia|].
  exists m'. split; [done|]. intros k.
  destruct (decide (k ∈ ks)) as [Hk|Hk]; [by apply Hin|]. by rewrite Hout.
Qed.

Lemma close_keys_closed fuel ks m :
  closed m → (∀ k, k ∈ ks → is_Some (m !! k)) →
  close_keys (S fuel) ks m = Ok m.
Proof.
  intros Hcl. induction ks as [|source ks IH]; intros Hks; [done|].
  destruct (Hks source) as [target Htarget]; [left|].
  simpl. unfold close_key. rewrite Htarget. simpl.
  rewrite (Hcl _ _ Htarget). simpl. rewrite insert_id by done.
  apply IH. intros k Hk. apply Hks. by right.
Qed.

(** X6. On a dict that is closed already (no target has an entry) the
    closure pass changes nothing. *)
Theorem closure_of_closed m ks :
  closed m → keys_of m ks → transitive_closure ks m = Ok m.
Proof.
  intros Hcl Hks. apply close_keys_closed; [done|].
  intros k. by apply keys_of_elem.
Qed.

Lemma final_target_unique m k t1 t2 :
  tc (hop m) k t1 → m !! t1 = None → tc (hop m) k t2 → m !! t2 = None → t1 = t2.
Proof.
  intros H1. revert t2. induction H1 as [x y Hxy|x y z Hxy Hyz IH]; intros t2 Hn1 H2 Hn2.
  - inversion H2 as [? ? Hxt|? y' ? Hxy' Hy't]; simplify_eq.
    + unfold hop in *. congruence.
    + unfold hop in *. assert (y' = y) as -> by congruence.
      inversion Hy't; unfold hop in *; congruence.
  - inversion H2 as [? ? Hxt|? y' ? Hxy' Hy't]; simplify_eq.
    + unfold hop in *. assert (t2 = y) as -> by congruence.
      inversion Hyz; unfold hop in *; congruence.
    + unfold hop in Hxy, Hxy'. assert (y' = y) as -> by congruence.
      by apply IH.
Qed.

(** X7. For a dict without cycles the result of the closure pass does not
    depend on the order in which the keys are visited, it is closed, and
    a second pass over it (in any order) returns it unchanged. *)
Theorem closure_order_independent m ks ks' :
  acyclic m → keys_of m ks → keys_of m ks' →
  ∃ m', transitive_closure ks m = Ok m' ∧ transitive_closure ks' m = Ok m' ∧
        closed m' ∧ transitive_closure ks' m' = Ok m'.
Proof.
  intros Hacyc Hks Hks'.
  destruct (close_keys_spec m (S (size m)) ks m) as (m1 & Hrun1 & Hcl1 & _ & Hfin1);
    [apply closing_refl|lia|intros k; by apply keys_of_elem|].
  destruct (close_keys_spec m (S (size m)) ks' m) as (m2 & Hrun2 & Hcl2 & _ & Hfin2);
    [apply closing_refl|lia|intros k; by apply keys_of_elem|].
  assert (m2 = m1) as ->.
  { apply map_eq. intros k. destruct Hcl1 as [Hdom1 Hv1], Hcl2 as [Hdom2 Hv2].
    destruct (m !! k) as [v|] eqn:Hk.
    - destruct (Hfin1 Hacyc k) as (t1 & Ht1 & Hn1).
      { apply (keys_of_elem m ks k Hks). eauto. }
      destruct (Hfin2 Hacyc k) as (t2 & Ht2 & Hn2).
      { apply (keys_of_elem m ks' k Hks'). eauto. }
      rewrite Ht1, Ht2. f_equal.
      eapply (final_target_unique m k); eauto.
    - apply not_elem_of_dom in Hk. pose proof Hk as Hk'.
      rewrite <-Hdom1 in Hk. rewrite <-Hdom2 in Hk'.
      apply not_elem_of_dom in Hk, Hk'. by rewrite Hk, Hk'. }
  assert (closed m1) as Hclosed.
  { intros k v Hkv. destruct Hcl1 as [Hdom1 Hv1].
    destruct (Hfin1 Hacyc k) as (t & Ht & Hn).
    { apply (keys_of_elem m ks k Hks). rewrite <-elem_of_dom, <-Hdom1, elem_of_dom. eauto. }
    assert (t = v) as -> by congruence.
    apply not_elem_of_dom. rewrite Hdom1. by apply not_elem_of_dom. }
  exists m1. split; [done|]. split; [done|]. split; [done|].
  apply close_keys_closed; [done|]. intros k Hk.
  destruct Hcl1 as [Hdom1 _]. rewrite <-elem_of_dom, Hdom1, elem_of_dom.
  by apply (keys_of_elem m ks' k Hks').
Qed.

(** X8. [get_redirects] returns a dict for every redirect file, and its
    keys are exactly the short names of the subjects of the statements of
    the file: the closure pass adds no key and drops none. *)
Theorem get_redirects_keys keys lines :
  keys_of (parse lines) (keys (parse lines)) →
  ∃ m', get_redirects keys lines = Ok m' ∧
        ∀ s, is_Some (m' !! s)
             ↔ ∃ line o, line ∈ lines ∧ NT.parse_line line = Some (s, o).
Proof.
  intros Hks. destruct (get_redirects_returns keys lines Hks) as (m' & Hrun & Hdom).
  exists m'. split; [done|]. intros s.
  rewrite <-elem_of_dom, Hdom, elem_of_dom. unfold parse.
  rewrite parse_fold_subject, lookup_empty. split; [|by right].
  intros [[? [=]]|?]; done.
Qed.

End redirect_more.

(** ** Ingestion, further *)

Section ingest_more.
Import Graph.
Implicit Types (redirects : gmap string string) (index_map im : gmap string nat)
  (links : list (nat * nat)).

Lemma index_resolve redirects im k :
  dense im → injective im →
  ∃ i im', index redirects im k = (i, im') ∧ im' !! resolve redirects k = Some i ∧
           im ⊆ im' ∧ dense im' ∧ injective im' ∧
           ∀ name, is_Some (im' !! name) ↔ is_Some (im !! name) ∨ name = resolve redirects k.
Proof.
  intros Hd Hinj.
  destruct (index_spec redirects im k Hd) as (i & im' & Hi & Hlook & Hcase & Hd' & _).
  exists i, im'. split; [done|]. split; [done|].
  destruct Hcase as [[Hold ->]|(Hnone & -> & ->)].
  - split; [done|]. split; [done|]. split; [done|]. intros name. split; [by left|].
    intros [?| ->]; [done|]. unfold resolve. eauto.
  - split; [by apply insert_subseteq|]. split; [done|]. split.
    + intros k1 k2 i. rewrite !lookup_insert. repeat case_decide; simplify_eq; try done.
      * intros [= <-] Hk2. assert (size im < size im) by (apply Hd; eauto). lia.
      * intros Hk1 [= <-]. assert (size im < size im) by (apply Hd; eauto). lia.
      * apply Hinj.
    + intros name. fold (resolve redirects k). rewrite lookup_insert.
      case_decide as Hn; [subst; split; eauto|]. split; [by left|].
      by intros [?|?].
Qed.

(** The state of the loop after the lines, for a loop without limit. *)
Lemma ingest_unlimited redirects l lines im links :
  dense im → injective im →
  ∃ im', ingest redirects None l lines im links
         = (im', links ++ ((λ so, (im' !!! resolve redirects so.1,
                                    im' !!! resolve redirects so.2))
                           <$> statements lines)) ∧
    im ⊆ im' ∧ dense im' ∧ injective im' ∧
    (∀ s o, (s, o) ∈ statements lines →
            is_Some (im' !! resolve redirects s) ∧ is_Some (im' !! resolve redirects o)) ∧
    (∀ name, is_Some (im' !! name)
             ↔ is_Some (im !! name)
               ∨ ∃ s o, (s, o) ∈ statements lines ∧
                        (name = resolve redirects s ∨ name = resolve redirects o)).
Proof.
  revert l im links. induction lines as [|line lines IH]; intros l im links Hd Hinj.
  - exists im. simpl. rewrite app_nil_r. split; [done|]. split; [done|].
    split; [done|]. split; [done|]. split; [by intros s o ?%elem_of_nil|].
    intros name. split; [by left|]. intros [?|(s & o & ?%elem_of_nil & _)]; done.
  - unfold statements in *. simpl.
    destruct (NT.parse_line line) as [[s o]|] eqn:Hline; simpl; [|by apply IH].
    destruct (index_resolve redirects im s Hd Hinj)
      as (i & im1 & -> & Hi & Hsub1 & Hd1 & Hinj1 & Hdom1).
    destruct (index_resolve redirects im1 o Hd1 Hinj1)
      as (j & im2 & -> & Hj & Hsub2 & Hd2 & Hinj2 & Hdom2).
    destruct (IH (S l) im2 (links ++ [(i, j)]) Hd2 Hinj2)
      as (im' & -> & Hsub & Hd' & Hinj' & Hall & Hdom').
    assert (im' !! resolve redirects s = Some i) as Hi'.
    { eapply lookup_weaken; [|done]. by eapply lookup_weaken. }
    assert (im' !! resolve redirects o = Some j) as Hj'.
    { by eapply lookup_weaken. }
    exists im'. split.
    { f_equal. rewrite <-(assoc_L (++)). simpl.
      by rewrite (lookup_total_correct _ _ _ Hi'), (lookup_total_correct _ _ _ Hj'). }
    split; [by repeat (etrans; [done|])|]. split; [done|]. split; [done|]. split.
    + intros s' o' [[= -> ->]|Hin]%elem_of_cons; [eauto|]. by apply Hall.
    + intros name. rewrite Hdom', Hdom2, Hdom1. split.
      * intros [[[?| ->]| ->]|(s' & o' & Hin & Hname)].
        -- by left.
        -- right. exists s, o. split; [left|by left].
        -- right. exists s, o. split; [left|by right].
        -- right. exists s', o'. split; [by right|done].
      * intros [?|(s' & o' & [[= -> ->]|Hin]%elem_of_cons & Hname)].
        -- by left; left; left.
        -- destruct Hname as [->| ->]; left; [left|]; by right.
        -- right. eauto.
Qed.

Lemma ingest_cutoff redirects (m : Z) l lines im links :
  ingest redirects (Some m) l lines im links
  = ingest redirects None l
      (take (Z.to_nat (m - 1 - Z.of_nat l)) lines
       ++ upto_statement (drop (Z.to_nat (m - 1 - Z.of_nat l)) lines)) im links.
Proof.
  revert l im links. induction lines as [|line lines IH]; intros l im links.
  - by rewrite take_nil, drop_nil.
  - destruct (Z.to_nat (m - 1 - Z.of_nat l)) as [|k] eqn:Hk.
    + rewrite take_0, drop_0. simpl.
      destruct (NT.parse_line line) as [[s o]|] eqn:Hline; simpl.
      * rewrite Hline. destruct (index redirects im s) as [i im1].
        destruct (index redirects im1 o) as [j im2].
        rewrite bool_decide_true by lia. done.
      * rewrite Hline, IH. replace (Z.to_nat (m - 1 - Z.of_nat (S l))) with 0 by lia.
        by rewrite take_0, drop_0.
    + assert (Z.to_nat (m - 1 - Z.of_nat (S l)) = k) as Hk' by lia. simpl.
      destruct (NT.parse_line line) as [[s o]|]; [|by rewrite IH, Hk'].
      destruct (index redirects im s) as [i im1].
      destruct (index redirects im1 o) as [j im2].
      rewrite bool_decide_false by lia. by rewrite IH, Hk'.
Qed.

Lemma statements_upto lines :
  length (statements (upto_statement lines)) = length (statements lines) `min` 1.
Proof.
  unfold statements. induction lines as [|line lines IH]; simpl; [done|].
  destruct (NT.parse_line line) as [so|] eqn:Hline; simpl; rewrite Hline; simpl; [lia|done].
Qed.

Lemma statements_app l1 l2 : statements (l1 ++ l2) = statements l1 ++ statements l2.
Proof. unfold statements. apply omap_app. Qed.

(** X9. Under a limit [m] (positive or not), [get_adjacency_matrix] reads
    exactly the first [m - 1] lines and then the lines up to the next
    statement: its index map and link pairs are those of the loop without
    limit on these lines. The limit counts lines, among them the malformed
    ones, not recorded pairs. *)
Theorem limit_reads_cutoff redirects (m : Z) (lines : list string) :
  ingest redirects (Some m) 0 lines ∅ [] = ingest redirects None 0 (cutoff m lines) ∅ [].
Proof. rewrite ingest_cutoff. unfold cutoff. by rewrite Z.sub_0_r. Qed.

(** The loop under any limit, as the loop without limit on the lines read. *)
Lemma ingest_lines_read redirects limit lines :
  ∃ im, ingest redirects limit 0 lines ∅ []
        = (im, (λ so, (im !!! resolve redirects so.1, im !!! resolve redirects so.2))
               <$> statements (lines_read limit lines)) ∧
    dense im ∧ injective im ∧
    (∀ s o, (s, o) ∈ statements (lines_read limit lines) →
            is_Some (im !! resolve redirects s) ∧ is_Some (im !! resolve redirects o)) ∧
    (∀ name, is_Some (im !! name)
             ↔ ∃ s o, (s, o) ∈ statements (lines_read limit lines) ∧
                      (name = resolve redirects s ∨ name = resolve redirects o)).
Proof.
  assert (injective ∅) as Hinj0 by (intros k1 k2 i Hk; by rewrite lookup_empty in Hk).
  assert (ingest redirects limit 0 lines ∅ []
          = ingest redirects None 0 (lines_read limit lines) ∅ []) as ->.
  { destruct limit as [m|]; [|done].
    rewrite ingest_cutoff. unfold lines_read, cutoff. by rewrite Z.sub_0_r. }
  destruct (ingest_unlimited redirects 0 (lines_read limit lines) ∅ []
              dense_empty Hinj0) as (im' & -> & _ & Hd & Hinj & Hall & Hdom).
  exists im'. split; [done|]. split; [done|]. split; [done|]. split; [done|].
  intros name. rewrite Hdom, lookup_empty. split; [|by right].
  intros [[? [=]]|?]; done.
Qed.

(** X10. The link pairs that [get_adjacency_matrix] records are, in the
    order of the stream, the statements it reads with both names resolved
    through the redirect dict and replaced by their ids in the final index
    map; every such name has an id there. So two names that resolve to the
    same name always get the same id, and an id never changes once given. *)
Theorem links_are_resolved_statements redirects (limit : option Z) (lines : list string) :
  (ingest redirects limit 0 lines ∅ []).2
  = (λ so, ((ingest redirects limit 0 lines ∅ []).1 !!! resolve redirects so.1,
            (ingest redirects limit 0 lines ∅ []).1 !!! resolve redirects so.2))
    <$> statements (lines_read limit lines) ∧
  ∀ s o, (s, o) ∈ statements (lines_read limit lines) →
    is_Some ((ingest redirects limit 0 lines ∅ []).1 !! resolve redirects s) ∧
    is_Some ((ingest redirects limit 0 lines ∅ []).1 !! resolve redirects o).
Proof.
  destruct (ingest_lines_read redirects limit lines) as (im & -> & _ & _ & Hall & _).
  done.
Qed.

(** X11. The names that get an id are exactly the resolved names of the
    subjects and objects of the statements read. When the redirect dict is
    closed, no name with an id has an entry in the dict: a redirected name
    never becomes a node of the graph. *)
Theorem index_map_names redirects (limit : option Z) (lines : list string) :
  (∀ name, is_Some ((ingest redirects limit 0 lines ∅ []).1 !! name)
           ↔ ∃ s o, (s, o) ∈ statements (lines_read limit lines) ∧
                    (name = resolve redirects s ∨ name = resolve redirects o)) ∧
  (closed redirects →
   ∀ name, is_Some ((ingest redirects limit 0 lines ∅ []).1 !! name) →
           redirects !! name = None).
Proof.
  destruct (ingest_lines_read redirects limit lines) as (im & -> & _ & _ & _ & Hdom).
  simpl. split; [done|]. intros Hcl name Hname.
  assert (∀ k, redirects !! resolve redirects k = None) as Hres.
  { intros k. unfold resolve. destruct (redirects !! k) as [v|] eqn:Hk; simpl; [|done].
    by eapply Hcl. }
  apply Hdom in Hname as (s & o & _ & [->| ->]); apply Hres.
Qed.

Lemma names_of_fold (names : gmap nat string) items i name :
  NoDup items.*2 →
  foldl (λ names item, <[item.2 := item.1]> names) names items !! i = Some name
  ↔ (name, i) ∈ items ∨ (names !! i = Some name ∧ i ∉ items.*2).
Proof.
  revert names. induction items as [|[name' i'] items IH]; intros names Hnd; simpl.
  - split; [intros ?; right; split; [done|by intros ?%elem_of_nil]|].
    intros [?%elem_of_nil|[? _]]; done.
  - apply NoDup_cons in Hnd as [Hi' Hnd]. rewrite IH by done. simpl.
    rewrite lookup_insert. split.
    + intros [Hin|[Hlook Hi]]; [left; by right|].
      case_decide as Heq; [injection Hlook as ->; subst; left; left|].
      right. split; [done|]. intros [?|?]%elem_of_cons; done.
    + intros [[[= -> ->]|Hin]%elem_of_cons|[Hlook Hi]].
      * right. by rewrite decide_True.
      * by left.
      * right. apply not_elem_of_cons in Hi as [Hne Hi].
        by rewrite decide_False.
Qed.

Lemma injective_NoDup_ids im : injective im → NoDup (map_to_list im).*2.
Proof.
  intros Hinj. apply NoDup_fmap_2_strong; [|apply NoDup_map_to_list].
  intros [k1 i1] [k2 i2] H1%elem_of_map_to_list H2%elem_of_map_to_list Heq.
  simpl in Heq. subst i2. f_equal. by eapply Hinj.
Qed.

(** X12. The dict [names] that the notebook builds from the index map is
    its inverse, whatever the order of [iteritems]: [names[i]] is the one
    name with id [i], and it is defined exactly for [i < N]; so looking up
    the name of a row or a score index below [N] never fails. *)
Theorem names_inverts_index_map redirects (limit : option Z) (lines : list string)
    (items : list (string * nat)) :
  items ≡ₚ map_to_list (ingest redirects limit 0 lines ∅ []).1 →
  (∀ i name, names_of items !! i = Some name
             ↔ (ingest redirects limit 0 lines ∅ []).1 !! name = Some i) ∧
  (∀ i, is_Some (names_of items !! i)
        ↔ i < size (ingest redirects limit 0 lines ∅ []).1).
Proof.
  destruct (ingest_lines_read redirects limit lines) as (im & -> & Hd & Hinj & _).
  simpl. intros Hperm.
  assert (∀ i name, names_of items !! i = Some name ↔ im !! name = Some i) as Hinv.
  { intros i name. unfold names_of. rewrite names_of_fold.
    - rewrite Hperm, elem_of_map_to_list, lookup_empty. naive_solver.
    - rewrite Hperm. by apply injective_NoDup_ids. }
  split; [done|]. intros i. rewrite <-(Hd i). split.
  - intros [name Hname]. exists name. by apply Hinv.
  - intros [name Hname]. exists name. by apply Hinv.
Qed.

(** X13. The number of link pairs recorded under a limit [m]: the
    statements among the first [m - 1] lines, and one more if a statement
    follows. With malformed lines among the first [m - 1] this is less
    than [m] even when the stream holds more statements. *)
Theorem limit_pair_count redirects (m : Z) (lines : list string) :
  length (ingest redirects (Some m) 0 lines ∅ []).2
  = length (statements (take (Z.to_nat (m - 1)) lines))
    + length (statements (drop (Z.to_nat (m - 1)) lines)) `min` 1.
Proof.
  destruct (ingest_lines_read redirects (Some m) lines) as (im & -> & _).
  simpl. unfold cutoff.
  by rewrite length_fmap, statements_app, length_app, statements_upto.
Qed.

(** X14. On a stream without malformed lines, a limit [m] records
    [max(m, 1)] pairs, or all of them if the stream is shorter: a limit of
    0 or less still records the first statement. *)
Theorem limit_on_clean_stream redirects (m : Z) (lines : list string) :
  (∀ line, line ∈ lines → is_Some (NT.parse_line line)) →
  length (ingest redirects (Some m) 0 lines ∅ []).2
  = Z.to_nat (Z.max m 1) `min` length lines.
Proof.
  intros Hclean.
  assert (∀ l, (∀ line, line ∈ l → is_Some (NT.parse_line line)) →
               length (statements l) = length l) as Hlen.
  { induction l as [|line l IH]; intros Hl; [done|].
    destruct (Hl line) as [so Hso]; [left|].
    unfold statements in *. simpl. rewrite Hso. simpl. f_equal. apply IH.
    intros line' Hin. apply Hl. by right. }
  destruct (ingest_lines_read redirects (Some m) lines) as (im & -> & _).
  simpl. unfold cutoff.
  rewrite length_fmap, statements_app, length_app, statements_upto.
  rewrite !Hlen.
  - rewrite length_take, length_drop. lia.
  - intros line Hin. apply Hclean. by eapply subseteq_drop.
  - intros line Hin. apply Hclean. by eapply subseteq_take.
Qed.

End ingest_more.

(** ** The power iteration, further *)

Section centrality_more.
Context {F : Type} `{Arith F}.
Import Centrality.
Implicit Types (σ : store F) (X Y : loc) (M : matrix F).

Lemma run_value_eq X1 X2 alpha max_iter tol σ1 σ2 :
  σ1 !!! X1 = σ2 !!! X2 →
  (run X1 alpha max_iter tol σ1).1 = (run X2 alpha max_iter tol σ2).1.
Proof.
  intros Heq. unfold run, copy. rewrite !lookup_total_insert_eq.
  rewrite !normalize_store by (rewrite lookup_insert_eq; eauto).
  rewrite !lookup_total_insert_eq, Heq. simpl.
  by destruct (dim (σ2 !!! X2)).
Qed.

(** X15. The value of a call of [centrality_scores] depends on the cells
    of its argument and on the parameters only. Since a call leaves its
    argument as it was, any later call on the same matrix (with the same
    or other parameters) returns what it would have returned before. *)
Theorem later_calls_unaffected X alpha max_iter tol alpha' max_iter' tol' σ M :
  σ !! X = Some M →
  (centrality_scores X alpha' max_iter' tol'
     (centrality_scores X alpha max_iter tol σ).2).1
  = (centrality_scores X alpha' max_iter' tol' σ).1.
Proof.
  intros HX. rewrite !centrality_scores_value, centrality_scores_store. f_equal.
  apply run_value_eq. rewrite run_store.
  rewrite lookup_total_insert_ne; [done|].
  intros Heq. pose proof (is_fresh (dom σ)) as Hfresh. rewrite Heq in Hfresh.
  apply Hfresh. by apply elem_of_dom_2 in HX.
Qed.

Lemma power_loop_first_pass todo i (M : matrix F) dangle alpha n tol last scores :
  let s := λ j, Nat.iter j (power_update M dangle alpha n) scores in
  let pass := λ j, ltf (error (s (S j)) (s j)) (of_nat n ⊗ tol) in
  let exit := power_loop todo i M dangle alpha n tol last scores in
  ∃ u, updates exit = u + i ∧ final_scores exit = s u ∧ u ≤ todo ∧
       if early_return exit
       then ∃ k, u = S k ∧ pass k = true ∧ ∀ j, j < k → pass j = false
       else u = todo ∧ ∀ j, j < todo → pass j = false.
Proof.
  revert i last scores. induction todo as [|todo IH]; intros i last scores; cbv zeta.
  - exists 0. simpl. split; [done|]. split; [done|]. split; [done|]. split; [done|].
    intros j Hj. lia.
  - simpl. destruct (ltf _ _) eqn:Hpass.
    + exists 1. simpl. split; [lia|]. split; [done|]. split; [lia|].
      exists 0. split; [done|]. split; [done|]. intros j Hj. lia.
    + destruct (IH (S i) (Some (error (power_update M dangle alpha n scores) scores))
                  (power_update M dangle alpha n scores)) as (u & Hu & Hfin & Hle & Hexit).
      exists (S u). rewrite Hu, Hfin. split; [lia|].
      split; [by rewrite Nat.iter_succ_r|]. split; [lia|].
      destruct (early_return _).
      * destruct Hexit as (k & -> & Hk & Hbefore). exists (S k). split; [done|].
        split; [by rewrite <-!Nat.iter_succ_r in Hk|].
        intros [|j] Hj; [done|]. rewrite !Nat.iter_succ_r. apply Hbefore. lia.
      * destruct Hexit as [-> Hbefore]. split; [done|].
        intros [|j] Hj; [done|]. rewrite !Nat.iter_succ_r. apply Hbefore. lia.
Qed.

Lemma dim_normalize_rows_any counts M : dim (normalize_rows counts M) = dim M.
Proof.
  unfold normalize_rows. generalize (nonzero counts) as rows. intros rows.
  revert M. induction rows as [|r rows IH]; intros M; simpl; [done|]. by rewrite IH.
Qed.

Lemma length_scores_after M alpha k : length (scores_after M alpha k) = dim M.
Proof.
  unfold scores_after. destruct k as [|k]; simpl.
  - by rewrite length_replicate.
  - unfold power_update, vecmat.
    by rewrite !length_fmap, length_seq, dim_normalize_rows_any.
Qed.

(** X16. A call on a matrix with at least one row makes its updates one
    after the other and returns at the first whose error passes the test
    [err < n * tol], or after [max_iter] updates when none does. The vector
    returned is the one after these updates; it has one entry per row. *)
Theorem returns_at_first_pass X alpha max_iter tol σ :
  dim (σ !!! X) ≠ 0 →
  ∃ exit, (run X alpha max_iter tol σ).1 = Ok exit ∧
    (centrality_scores X alpha max_iter tol σ).1
      = Ok (scores_after (σ !!! X) alpha (updates exit)) ∧
    length (scores_after (σ !!! X) alpha (updates exit)) = dim (σ !!! X) ∧
    updates exit ≤ Z.to_nat max_iter ∧
    if early_return exit
    then ∃ k, updates exit = S k ∧ test_passed (σ !!! X) alpha tol k = true ∧
              ∀ j, j < k → test_passed (σ !!! X) alpha tol j = false
    else updates exit = Z.to_nat max_iter ∧
         ∀ j, j < Z.to_nat max_iter → test_passed (σ !!! X) alpha tol j = false.
Proof.
  intros Hn. rewrite centrality_scores_value, run_value by done. cbv zeta.
  eexists. split; [done|].
  match goal with |- context [power_loop ?t ?i ?m ?d ?a ?n ?e ?l ?s] =>
    destruct (power_loop_first_pass t i m d a n e l s) as (u & Hu & Hfin & Hle & Hexit)
  end.
  rewrite Nat.add_0_r in Hu. rewrite Hu. simpl. rewrite Hfin.
  split; [done|]. split; [apply length_scores_after|]. split; [done|].
  destruct (early_return _); [|by destruct Hexit as [-> ?]].
  destruct Hexit as (k & -> & Hk & Hbefore). eauto.
Qed.

End centrality_more.

(** ** The power iteration in exact arithmetic, further *)

Section exact_more.
Import Centrality.
Local Open Scope Qc_scope.
Implicit Types (M : matrix Qc) (σ : store Qc) (v s p : list Qc) (x y : Qc).

Lemma maxf_ge_l x y : x ≤ maxf x y.
Proof. unfold maxf. simpl. case_decide; [done|]. reflexivity. Qed.

Lemma foldl_maxf_ge x v : x ≤ foldl maxf x v.
Proof.
  revert x. induction v as [|y v IH]; intros x; simpl; [reflexivity|].
  etrans; [apply (maxf_ge_l x y)|apply IH].
Qed.

Lemma vmax_nonneg v : (∀ x, x ∈ v → 0 ≤ x) → 0 ≤ vmax v.
Proof.
  destruct v as [|x v]; intros Hv; simpl; [reflexivity|].
  etrans; [|apply foldl_maxf_ge]. apply Hv. left.
Qed.

Lemma vmax_absf_nonneg v : 0 ≤ vmax (absf <$> v).
Proof.
  apply vmax_nonneg. intros x (y & -> & _)%list_elem_of_fmap. apply Qcabs_nonneg.
Qed.

Lemma error_nonneg s p : 0 ≤ error s p.
Proof.
  unfold error. exact_arith. apply Qcdiv_nonneg; [apply vmax_absf_nonneg|].
  case_bool_decide; [done|apply vmax_absf_nonneg].
Qed.

Lemma power_loop_no_pass todo i M dangle alpha n tol last scores :
  tol ≤ 0 →
  early_return (power_loop todo i M dangle alpha n tol last scores) = false.
Proof.
  intros Htol. revert i last scores. induction todo as [|todo IH]; intros i last scores;
    [done|].
  cbn [power_loop].
  assert (ltf (error (power_update M dangle alpha n scores) scores)
              (of_nat n ⊗ tol) = false) as ->; [|apply IH].
  apply bool_decide_eq_false. apply Qcle_not_lt.
  etrans; [|apply error_nonneg]. exact_arith.
  rewrite <-(Qcmult_0_r (of_nat n)). apply Qcmult_le_mono_nonneg_l; [|done].
  apply of_nat_nonneg.
Qed.

(** X17. In exact arithmetic, with [tol <= 0] the test [err < n * tol]
    never passes (the error is not negative): the call makes all
    [max_iter] updates, for every matrix with at least one row. *)
Theorem nonpositive_tol_never_passes σ (X : loc) alpha (max_iter : Z) tol :
  tol ≤ 0 → dim (σ !!! X) ≠ 0%nat →
  ∃ exit, (run X alpha max_iter tol σ).1 = Ok exit ∧
          early_return exit = false ∧ updates exit = Z.to_nat max_iter.
Proof.
  intros Htol Hn. rewrite run_value by done. cbv zeta. eexists. split; [done|].
  match goal with |- context [power_loop ?t ?i ?m ?d ?a ?n ?e ?l ?s] =>
    pose proof (power_loop_no_pass t i m d a n e l s Htol) as Hno;
    destruct (power_loop_exhausted t i m d a n e l s Hno) as [_ Hu]
  end.
  split; [done|]. rewrite Hu. lia.
Qed.

(** X18. In exact arithmetic, for a matrix with nonnegative cells and
    [0 < alpha < 1], every score after one or more updates is at least
    [(1 - alpha) / N], so it is positive: dangling and unlinked pages
    included. The guard [scores_max == 0.0] of the error is then never
    taken. *)
Theorem scores_positive M alpha (k : nat) :
  (∀ i j, 0 ≤ cell M i j) → 0 < alpha < 1 → dim M ≠ 0%nat →
  (∀ x, x ∈ scores_after M alpha (S k) → (1 - alpha) / of_nat (dim M) ≤ x ∧ 0 < x) ∧
  vmax (absf <$> scores_after M alpha (S k)) ≠ 0.
Proof.
  intros HM Ha Hn.
  destruct (scores_after_distribution M alpha k HM Ha Hn) as (Hlen & Hpos & Hsum).
  destruct Ha as [Ha0 Ha1].
  assert (0 < (1 - alpha) / of_nat (dim M)) as Hfloor.
  { unfold Qcdiv. apply Qcmult_pos_pos.
    - apply (Qcplus_lt_mono_r _ _ alpha). by ring_simplify.
    - apply Qcinv_pos. by apply of_nat_pos. }
  assert (∀ x, x ∈ scores_after M alpha (S k) → (1 - alpha) / of_nat (dim M) ≤ x)
    as Hge.
  { intros x. rewrite scores_after_S. cbv zeta.
    set (Xn := normalize_rows (row_sums M) M).
    assert (dim Xn = dim M) as HX by apply dim_normalize_rows.
    rewrite power_update_as_indices by (by rewrite ?length_dangle_vector, ?HX).
    intros (j & -> & _)%list_elem_of_fmap. rewrite Hsum.
    rewrite <-(Qcplus_0_l ((1 - alpha) / of_nat (dim M))) at 1.
    replace ((1 - alpha) * 1) with (1 - alpha) by ring.
    apply Qcplus_le_mono_r. apply Qcmult_nonneg_nonneg; [by apply Qclt_le_weak|].
    assert (∀ i, 0 ≤ scores_after M alpha k !!! i) as Hsi.
    { intros i. destruct (scores_after M alpha k !! i) as [y|] eqn:Hy.
      - rewrite (list_lookup_total_correct _ _ _ Hy). apply Hpos.
        by eapply list_elem_of_lookup_2.
      - by rewrite list_lookup_total_alt, Hy. }
    apply Qcplus_nonneg_nonneg; apply vsum_nonneg;
      intros y (i & -> & _)%list_elem_of_fmap; apply Qcmult_nonneg_nonneg; try done.
    - by apply cell_normalize_nonneg.
    - destruct (dangle_vector Xn (dim M) !! i) as [d|] eqn:Hd.
      + rewrite (list_lookup_total_correct _ _ _ Hd).
        apply list_elem_of_lookup_2 in Hd.
        apply list_elem_of_fmap in Hd as (c & -> & _). exact_arith.
        case_bool_decide; [|done]. apply Qcdiv_nonneg; [done|apply of_nat_nonneg].
      + by rewrite list_lookup_total_alt, Hd. }
  split.
  - intros x Hx. split; [by apply Hge|]. eapply Qclt_le_trans; [done|by apply Hge].
  - destruct (scores_after M alpha (S k)) as [|x v] eqn:Hs.
    { pose proof (length_scores_after M alpha (S k)) as Hl. rewrite Hs in Hl.
      by destruct Hn. }
    intros Hzero.
    assert (0 < x) as Hx.
    { eapply Qclt_le_trans; [done|]. apply Hge. left. }
    assert (x ≤ 0) as Hle; [|by apply Qcle_not_lt in Hle].
    rewrite <-Hzero. rewrite fmap_cons. simpl.
    etrans; [|apply foldl_maxf_ge]. rewrite Qcabs_pos; [reflexivity|].
    by apply Qclt_le_weak.
Qed.

End exact_more.

Section exact_uniform.
Import Centrality.
Local Open Scope Qc_scope.
Implicit Types (M : matrix Qc) (σ : store Qc) (v s p : list Qc) (x y c : Qc).







Lemma vsum_indicator {A} (P : A → Prop) `{!∀ a, Decision (P a)} (l : list A) :
  vsum ((λ a, if decide (P a) then 1 else 0) <$> l) = of_nat (length (filter P l)).
Proof.
  induction l as [|a l IH]; csimpl.
  - by rewrite vsum_nil, of_nat_0.
  - rewrite vsum_cons, IH, filter_cons. case_decide; simpl.
    + rewrite of_nat_S. ring.
    + ring.
Qed.

(** X20. The array [incoming_counts] of [centrality_scores] holds, for the
    matrix that [get_adjacency_matrix] builds, the number of different
    pages that each page links to: its out-degree. A row is dangling
    exactly when its page is the source of no recorded link. *)
Theorem row_sums_are_out_degrees (redirects : gmap string string)
    (limit : option Z) (page_links : list string) :
  ∃ X : matrix Qc,
    Graph.build redirects page_links limit
    = Ok (X, redirects, (Graph.ingest redirects limit 0 page_links ∅ []).1) ∧
    ∀ i, (i < dim X)%nat →
      row_sums X !!! i
      = of_nat (length (filter (λ j, (i, j) ∈ (Graph.ingest redirects limit 0 page_links ∅ []).2)
                               (seq 0 (dim X)))) ∧
      (row_sums X !!! i = 0
       ↔ ∀ j, (i, j) ∉ (Graph.ingest redirects limit 0 page_links ∅ []).2).
Proof.
  unfold Graph.build.
  pose proof (ingest_inv redirects limit 0 page_links ∅ [] dense_empty) as Hinv.
  destruct (Graph.ingest redirects limit 0 page_links ∅ []) as [im links].
  destruct Hinv as [_ Hb]; [intros i j Hij; by apply elem_of_nil in Hij|].
  simpl in *.
  destruct (fill_cells (F := Qc) (size im) links Hb) as (X & Hf & Hdim & Hc & _).
  exists X. rewrite Hf. split; [done|]. intros i Hi.
  assert (row_sums X !!! i
          = of_nat (length (filter (λ j, (i, j) ∈ links) (seq 0 (dim X))))) as Hcount.
  { rewrite lookup_total_row_sums by done. unfold row_sum.
    rewrite <-vsum_indicator. apply vsum_fmap_ext. intros j _.
    unfold cell. rewrite Hc. by case_decide. }
  split; [done|]. rewrite Hcount. split.
  - intros Hzero j Hij.
    assert (length (filter (λ j, (i, j) ∈ links) (seq 0 (dim X))) = 0%nat) as Hlen.
    { destruct (length _) as [|n] eqn:Hl; [done|].
      pose proof (of_nat_pos (S n) ltac:(done)) as Hpos. rewrite Hzero in Hpos.
      by apply Qclt_not_eq in Hpos. }
    apply length_zero_iff_nil in Hlen.
    assert (j ∈ filter (λ j, (i, j) ∈ links) (seq 0 (dim X))) as Hin.
    { apply list_elem_of_filter. split; [done|]. apply elem_of_seq_0.
      rewrite Hdim. by destruct (Hb _ _ Hij). }
    rewrite Hlen in Hin. by apply elem_of_nil in Hin.
  - intros Hnone. replace (filter _ _) with (@nil nat); [apply of_nat_0|].
    symmetry. apply length_zero_iff_nil.
    destruct (filter _ _) as [|j l] eqn:Hfil; [done|].
    assert (j ∈ filter (λ j, (i, j) ∈ links) (seq 0 (dim X))) as Hin
      by (rewrite Hfil; left).
    apply list_elem_of_filter in Hin as [Hin _]. by apply Hnone in Hin.
Qed.

End exact_uniform.

(** ** Instances of the properties above *)

Section more_instances.
Import Redirects Graph Centrality.

Lemma parse_last_statement_wins_witness :
  NT.parse_line (link_line "A" "B") = Some ("A", "B") ∧
  (∀ line' o', line' ∈ [link_line "B" "C"; "junk"] →
               NT.parse_line line' ≠ Some ("A", o')) ∧
  parse (["bad"; link_line "A" "X"] ++ link_line "A" "B" :: [link_line "B" "C"; "junk"])
    !! "A" = Some "B".
Proof.
  assert (∀ line' o', line' ∈ [link_line "B" "C"; "junk"] →
                      NT.parse_line line' ≠ Some ("A", o')) as Hlater.
  { intros line' o' Hin.
    apply elem_of_cons in Hin as [->|Hin]; [vm_compute; discriminate|].
    apply list_elem_of_singleton in Hin as ->. vm_compute. discriminate. }
  split; [reflexivity|]. split; [exact Hlater|].
  exact (parse_last_statement_wins ["bad"; link_line "A" "X"] (link_line "A" "B")
           [link_line "B" "C"; "junk"] "A" "B" eq_refl Hlater).
Defined.

Lemma closure_self_redirects_witness :
  keys_of abc_cycle ["A"; "B"; "C"] ∧
  ∃ m', transitive_closure ["A"; "B"; "C"] abc_cycle = Ok m' ∧
        ∀ k, m' !! k = Some k ↔ abc_cycle !! k = Some k.
Proof.
  split; [exact abc_cycle_keys|].
  exact (closure_self_redirects abc_cycle ["A"; "B"; "C"] abc_cycle_keys).
Defined.

Lemma ab_closed_closed : closed ab_closed.
Proof.
  intros k v Hk. unfold ab_closed in Hk.
  assert (v = "C") as ->; [|reflexivity].
  apply lookup_insert_Some in Hk as [[_ <-]|[_ Hk]]; [done|].
  apply lookup_insert_Some in Hk as [[_ <-]|[_ Hk]]; [done|].
  by rewrite lookup_empty in Hk.
Qed.

Lemma closure_of_closed_witness :
  closed ab_closed ∧ keys_of ab_closed (dict_keys ab_closed) ∧
  transitive_closure (dict_keys ab_closed) ab_closed = Ok ab_closed.
Proof.
  split; [exact ab_closed_closed|]. split; [exact (dict_keys_spec ab_closed)|].
  exact (closure_of_closed ab_closed (dict_keys ab_closed) ab_closed_closed
           (dict_keys_spec ab_closed)).
Defined.

Lemma ab_chain_keys_rev : keys_of ab_chain ["B"; "A"].
Proof. split; [by repeat constructor; set_solver|]. vm_compute. reflexivity. Qed.

Lemma closure_order_independent_witness :
  acyclic ab_chain ∧ keys_of ab_chain ["A"; "B"] ∧ keys_of ab_chain ["B"; "A"] ∧
  ∃ m', transitive_closure ["A"; "B"] ab_chain = Ok m' ∧
        transitive_closure ["B"; "A"] ab_chain = Ok m' ∧
        closed m' ∧ transitive_closure ["B"; "A"] m' = Ok m'.
Proof.
  split; [exact ab_chain_acyclic|]. split; [exact ab_chain_keys|].
  split; [exact ab_chain_keys_rev|].
  exact (closure_order_independent ab_chain ["A"; "B"] ["B"; "A"] ab_chain_acyclic
           ab_chain_keys ab_chain_keys_rev).
Defined.

Lemma get_redirects_keys_witness :
  keys_of (parse sample_stream) (dict_keys (parse sample_stream)) ∧
  ∃ m', get_redirects dict_keys sample_stream = Ok m' ∧
        ∀ s, is_Some (m' !! s)
             ↔ ∃ line o, line ∈ sample_stream ∧ NT.parse_line line = Some (s, o).
Proof.
  split; [exact (dict_keys_spec (parse sample_stream))|].
  exact (get_redirects_keys dict_keys sample_stream
           (dict_keys_spec (parse sample_stream))).
Defined.

Lemma names_inverts_index_map_witness :
  map_to_list (ingest ab_closed None 0 sample_stream ∅ []).1
    ≡ₚ map_to_list (ingest ab_closed None 0 sample_stream ∅ []).1 ∧
  (∀ i name,
     names_of (map_to_list (ingest ab_closed None 0 sample_stream ∅ []).1) !! i
       = Some name
     ↔ (ingest ab_closed None 0 sample_stream ∅ []).1 !! name = Some i) ∧
  (∀ i, is_Some (names_of (map_to_list (ingest ab_closed None 0 sample_stream ∅ []).1)
                   !! i)
        ↔ i < size (ingest ab_closed None 0 sample_stream ∅ []).1).
Proof.
  split; [reflexivity|].
  exact (names_inverts_index_map ab_closed None sample_stream
           (map_to_list (ingest ab_closed None 0 sample_stream ∅ []).1)
           (reflexivity _)).
Defined.

Lemma clean_stream_parses line :
  line ∈ [link_line "A" "B"; link_line "B" "C"; link_line "C" "A"] →
  is_Some (NT.parse_line line).
Proof.
  intros Hin. repeat (apply elem_of_cons in Hin as [->|Hin]; [by eexists|]).
  by apply elem_of_nil in Hin.
Qed.

Lemma limit_on_clean_stream_witness :
  (∀ line, line ∈ [link_line "A" "B"; link_line "B" "C"; link_line "C" "A"] →
           is_Some (NT.parse_line line)) ∧
  length (ingest ∅ (Some 0%Z) 0
            [link_line "A" "B"; link_line "B" "C"; link_line "C" "A"] ∅ []).2
  = Z.to_nat (Z.max 0 1)
    `min` length [link_line "A" "B"; link_line "B" "C"; link_line "C" "A"].
Proof.
  split; [exact clean_stream_parses|].
  exact (limit_on_clean_stream ∅ 0%Z
           [link_line "A" "B"; link_line "B" "C"; link_line "C" "A"]
           clean_stream_parses).
Defined.

Lemma later_calls_unaffected_witness :
  edge01_store !! 0 = Some edge01 ∧
  (centrality_scores 0 (Q2Qc (1 # 2)) 5 (Q2Qc (1 # 100))
     (centrality_scores 0 (Q2Qc (17 # 20)) 100 (Q2Qc (1 # 10000000000))
        edge01_store).2).1
  = (centrality_scores 0 (Q2Qc (1 # 2)) 5 (Q2Qc (1 # 100)) edge01_store).1.
Proof.
  split; [reflexivity|].
  exact (later_calls_unaffected 0 (Q2Qc (17 # 20)) 100%Z (Q2Qc (1 # 10000000000))
           (Q2Qc (1 # 2)) 5%Z (Q2Qc (1 # 100)) edge01_store edge01 eq_refl).
Defined.

Lemma edge01_rows : dim (edge01_store !!! 0) ≠ 0.
Proof. vm_compute. discriminate. Qed.

Lemma returns_at_first_pass_witness :
  dim (edge01_store !!! 0) ≠ 0 ∧
  ∃ exit, (run 0 (Q2Qc (17 # 20)) 100 (Q2Qc (1 # 100)) edge01_store).1 = Ok exit ∧
    (centrality_scores 0 (Q2Qc (17 # 20)) 100 (Q2Qc (1 # 100)) edge01_store).1
      = Ok (scores_after (edge01_store !!! 0) (Q2Qc (17 # 20)) (updates exit)) ∧
    length (scores_after (edge01_store !!! 0) (Q2Qc (17 # 20)) (updates exit))
      = dim (edge01_store !!! 0) ∧
    updates exit ≤ Z.to_nat 100 ∧
    if early_return exit
    then ∃ k, updates exit = S k ∧
              test_passed (edge01_store !!! 0) (Q2Qc (17 # 20)) (Q2Qc (1 # 100)) k = true ∧
              ∀ j, j < k →
                test_passed (edge01_store !!! 0) (Q2Qc (17 # 20)) (Q2Qc (1 # 100)) j
                = false
    else updates exit = Z.to_nat 100 ∧
         ∀ j, j < Z.to_nat 100 →
           test_passed (edge01_store !!! 0) (Q2Qc (17 # 20)) (Q2Qc (1 # 100)) j = false.
Proof.
  split; [exact edge01_rows|].
  exact (returns_at_first_pass 0 (Q2Qc (17 # 20)) 100%Z (Q2Qc (1 # 100)) edge01_store
           edge01_rows).
Defined.

Lemma nonpositive_tol_never_passes_witness :
  (Q2Qc 0 ≤ 0)%Qc ∧ dim (edge01_store !!! 0) ≠ 0 ∧
  ∃ exit, (run 0 (Q2Qc (17 # 20)) 3 (Q2Qc 0) edge01_store).1 = Ok exit ∧
          early_return exit = false ∧ updates exit = Z.to_nat 3.
Proof.
  assert (Q2Qc 0 ≤ 0)%Qc as Htol by reflexivity.
  split; [exact Htol|]. split; [exact edge01_rows|].
  exact (nonpositive_tol_never_passes edge01_store 0 (Q2Qc (17 # 20)) 3%Z (Q2Qc 0)
           Htol edge01_rows).
Defined.

Lemma scores_positive_witness :
  (∀ i j, 0 ≤ cell (edge01_store !!! 0%nat) i j)%Qc ∧ (0 < Q2Qc (17 # 20) < 1)%Qc ∧
  dim (edge01_store !!! 0%nat) ≠ 0 ∧
  (∀ x, x ∈ scores_after (edge01_store !!! 0%nat) (Q2Qc (17 # 20)) 1 →
        ((1 - Q2Qc (17 # 20)) / of_nat (dim (edge01_store !!! 0%nat)) ≤ x)%Qc ∧ (0 < x)%Qc) ∧
  vmax (absf <$> scores_after (edge01_store !!! 0%nat) (Q2Qc (17 # 20)) 1) ≠ 0%Qc.
Proof.
  split; [exact edge01_nonneg|]. split; [exact alpha_in_range|].
  split; [exact edge01_rows|].
  exact (scores_positive (edge01_store !!! 0%nat) (Q2Qc (17 # 20)) 0 edge01_nonneg
           alpha_in_range edge01_rows).
Defined.





End more_instances.

